(** * Schema export for BIRD Postgres databases

    A shallow embedding of [scripts/curation/bird_schema_converter_postgres.py]
    and the properties of its schema extraction and table-name
    reconciliation.

    Modelling choices.
    - Strings are byte strings (UTF-8); byte-wise [String.leb] is the
      code-point order Python's [sorted] uses.
    - The Python builtins [str], [str.lower] and [str.upper] form the
      interface [Builtins]; every general theorem holds for any
      implementation of it.  An ASCII instance is used to evaluate the
      program on concrete inputs.
    - The Postgres server is a snapshot of the [information_schema] views the
      script reads and of the stored column values; each statement of the
      script is interpreted over that snapshot, and a statement may fail.
      The sampling statement is the text the f-string builds from the
      names; the server reads it with [parse_select].
    - Exceptions are an error monad ([result]); the connection life cycle is
      a trace of [event]s threaded through [io].
    - [primary_keys] is a [gset], the lookup-only dicts [fk_map] and
      [pg_tables_lower] are [gmap]s; the dicts that are serialised keep
      Python's insertion order ([dict]).
    - Logging does not influence any result and is left out. *)

From Stdlib Require Import Ascii String.
From stdpp Require Import base strings list sorting gmap pretty.

Local Open Scope string_scope.
Local Open Scope Z_scope.
Local Open Scope list_scope.

(** ** Python builtins used by the script *)

Class Builtins := {
  pyobject : Type;                      (* non-None values psycopg2 returns *)
  str : option pyobject → string;       (* str(x); [None] is Python's None *)
  lower : string → string;              (* str.lower *)
  upper : string → string;              (* str.upper *)
}.

(** ** Exceptions *)

Inductive exn :=
  | RuntimeError (msg : string)
  | NameError (name : string)
  | TypeError (msg : string)
  | KeyError (key : string)
  | OperationalError
  | DatabaseError.

Inductive result (A : Type) :=
  | Ok (a : A)
  | Raise (e : exn).
Arguments Ok {A} a.
Arguments Raise {A} e.

#[global] Instance result_ret : MRet result := λ A a, Ok a.
#[global] Instance result_bind : MBind result := λ A B f m,
  match m with
  | Ok a => f a
  | Raise e => Raise e
  end.

(** ** Connection life cycle *)

Inductive event :=
  | Connected (dsn : string)
  | Closed.

Definition is_connect (e : event) : bool :=
  match e with
  | Connected _ => true
  | Closed => false
  end.

#[global] Instance event_eq_dec : EqDecision event.
Proof. solve_decision. Defined.

Definition io (A : Type) : Type := list event → result A * list event.

#[global] Instance io_ret : MRet io := λ A a tr, (Ok a, tr).
#[global] Instance io_bind : MBind io := λ A B f m tr,
  match m tr with
  | (Ok a, tr') => f a tr'
  | (Raise e, tr') => (Raise e, tr')
  end.

Definition lift {A} (r : result A) : io A := λ tr, (r, tr).

(** ** Output data model: the JSON document *)

Record foreign_key_ref := {
  target_table : string;
  target_column : string;
}.

Record column_descriptor := {
  col_name : string;
  col_type : string;
  col_primary_key : bool;
  col_foreign_keys : list foreign_key_ref;
  col_description : string;
  col_value_samples : list string;
}.

Record table_record := {
  tbl_name : string;
  tbl_columns : list column_descriptor;
  tbl_description : string;
  tbl_table_str : string;
}.

(** A Python dict with string keys, in insertion order: assigning to an
    existing key keeps its position, a new key goes last. *)
Definition dict (V : Type) : Type := list (string * V).

Fixpoint dict_get {V} (d : dict V) (k : string) : option V :=
  match d with
  | [] => None
  | (k', v) :: rest => if decide (k' = k) then Some v else dict_get rest k
  end.

Fixpoint dict_set {V} (d : dict V) (k : string) (v : V) : dict V :=
  match d with
  | [] => [(k, v)]
  | (k', v') :: rest =>
      if decide (k' = k) then (k', v) :: rest else (k', v') :: dict_set rest k v
  end.

Definition dict_keys {V} (d : dict V) : list string := fst <$> d.

Record database_record := {
  db_name : string;
  db_tables : dict table_record;
}.

(** ** Input manifest: one entry of [dev_tables.json] *)

Record db_info := {
  db_id : string;
  table_names_original : list string;
}.

#[global] Instance db_info_eq_dec : EqDecision db_info.
Proof. solve_decision. Defined.

(** ** The Postgres server *)

(** Rows of the [information_schema] views, with the columns the script
    reads. *)
Record tables_row := {
  t_table_schema : string;
  t_table_name : string;
}.

Record table_constraints_row := {
  tc_constraint_name : string;
  tc_table_name : string;
  tc_constraint_type : string;
}.

Record key_column_usage_row := {
  kcu_constraint_name : string;
  kcu_table_name : string;
  kcu_column_name : string;
}.

Record constraint_column_usage_row := {
  ccu_constraint_name : string;
  ccu_table_name : string;
  ccu_column_name : string;
}.

Record columns_row := {
  c_table_name : string;
  c_column_name : string;
  c_data_type : string;
  c_ordinal_position : Z;
}.

(** The five statements the script executes. *)
Inductive sql_query :=
  | SelectTables
  | SelectPrimaryKeys (table : string)
  | SelectForeignKeys (table : string)
  | SelectColumns (table : string)
  | SelectSample (table column_name : string).

(** [ORDER BY ordinal_position] *)
Definition by_ordinal_position (r1 r2 : columns_row) : Prop :=
  c_ordinal_position r1 ≤ c_ordinal_position r2.

#[global] Instance by_ordinal_position_dec : RelDecision by_ordinal_position.
Proof. unfold by_ordinal_position. solve_decision. Defined.

Definition order_by_ordinal_position : list columns_row → list columns_row :=
  merge_sort by_ordinal_position.

(** The order of Python's [str]: code points, that is bytes of UTF-8. *)
Definition str_le (s1 s2 : string) : Prop := String.leb s1 s2 = true.

#[global] Instance str_le_dec : RelDecision str_le.
Proof. unfold str_le. solve_decision. Defined.

(** Python's [sorted] on a list of [str] *)
Definition sorted : list string → list string := merge_sort str_le.

(** ** The text of the sampling statement *)

(** The double quote character. *)
Definition dquote : ascii := ascii_of_nat 34.

(** [f'"{name}"'] *)
Definition quote (name : string) : string :=
  String dquote (name +:+ String dquote "").

(** Lines 103-104: [f'SELECT "{column_name}" FROM "{table}" '
    f'WHERE "{column_name}" IS NOT NULL LIMIT 5;'].  The names are
    interpolated as they are. *)
Definition sample_statement (table column_name : string) : string :=
  "SELECT " +:+ quote column_name +:+ " FROM " +:+ quote table
  +:+ " WHERE " +:+ quote column_name +:+ " IS NOT NULL LIMIT 5;".

(** The fragment of SQL in which the server's reading of a statement text
    is modelled: [SELECT "c" FROM "t"], optionally followed by
    [WHERE "c" IS NOT NULL] on the same column and by [LIMIT 5], then
    spaces, an optional semicolon and an optional [--] comment up to the
    end of the text. *)
Record select_statement := {
  sel_column : string;
  sel_table : string;
  sel_not_null : bool;
  sel_limit_5 : bool;
}.

(** Removes a prefix. *)
Fixpoint strip_prefix (prefix text : string) : option string :=
  match prefix, text with
  | EmptyString, _ => Some text
  | String a prefix', String b text' =>
      if decide (a = b) then strip_prefix prefix' text' else None
  | String _ _, EmptyString => None
  end.

(** Reads a quoted identifier after its opening quote: up to the next
    double quote that is not doubled; a doubled one stands for one double
    quote in the name. *)
Fixpoint read_identifier (text : string) : option (string * string) :=
  match text with
  | EmptyString => None
  | String c text' =>
      if decide (c = dquote) then
        match text' with
        | String c' text'' =>
            if decide (c' = dquote)
            then prod_map (String dquote) id <$> read_identifier text''
            else Some (EmptyString, text')
        | EmptyString => Some (EmptyString, EmptyString)
        end
      else prod_map (String c) id <$> read_identifier text'
  end.

Definition quoted_identifier (text : string) : option (string * string) :=
  match text with
  | String c text' => if decide (c = dquote) then read_identifier text' else None
  | EmptyString => None
  end.

Fixpoint skip_spaces (text : string) : string :=
  match text with
  | String c text' => if decide (c = " "%char) then skip_spaces text' else text
  | EmptyString => text
  end.

Fixpoint one_line (text : string) : bool :=
  match text with
  | EmptyString => true
  | String c text' =>
      if decide (c = ascii_of_nat 10 ∨ c = ascii_of_nat 13) then false
      else one_line text'
  end.

(** Nothing, or a [--] comment that runs to the end of the text. *)
Definition comment_or_end (text : string) : bool :=
  match text with
  | EmptyString => true
  | _ =>
      match strip_prefix "--" text with
      | Some comment => one_line comment
      | None => false
      end
  end.

(** Spaces, an optional semicolon, spaces, an optional comment. *)
Definition ends_statement (text : string) : bool :=
  match skip_spaces text with
  | String c text' =>
      if decide (c = ";"%char) then comment_or_end (skip_spaces text')
      else comment_or_end (String c text')
  | EmptyString => true
  end.

(** The optional [WHERE "c" IS NOT NULL] on the selected column. *)
Definition where_not_null (column_name text : string)
  : option (bool * string) :=
  match strip_prefix " WHERE " text with
  | None => Some (false, text)
  | Some text1 =>
      '(filtered, text2) ← quoted_identifier text1;
      text3 ← strip_prefix " IS NOT NULL" text2;
      if decide (filtered = column_name) then Some (true, text3) else None
  end.

(** The optional [LIMIT 5]. *)
Definition limit_5 (text : string) : bool * string :=
  match strip_prefix " LIMIT 5" text with
  | Some text' => (true, text')
  | None => (false, text)
  end.

Definition parse_select (text : string) : option select_statement :=
  text1 ← strip_prefix "SELECT " text;
  '(column_name, text2) ← quoted_identifier text1;
  text3 ← strip_prefix " FROM " text2;
  '(table, text4) ← quoted_identifier text3;
  '(not_null, text5) ← where_not_null column_name text4;
  let '(limited, text6) := limit_5 text5 in
  if ends_statement text6
  then Some {| sel_column := column_name; sel_table := table;
               sel_not_null := not_null; sel_limit_5 := limited |}
  else None.

(** The name holds a double quote. *)
Fixpoint has_dquote (name : string) : bool :=
  match name with
  | EmptyString => false
  | String c name' => if decide (c = dquote) then true else has_dquote name'
  end.

Section Script.
Context `{Builtins}.

(** A snapshot of the server: which connection strings it accepts, the
    catalog views, the stored values of every column in scan order ([None]
    is SQL NULL), which statements fail when executed, and the rows it
    returns for a statement text outside the fragment [parse_select]
    reads. *)
Record pg_server := {
  pg_accepts : string → bool;
  pg_tables_view : list tables_row;
  pg_table_constraints : list table_constraints_row;
  pg_key_column_usage : list key_column_usage_row;
  pg_constraint_column_usage : list constraint_column_usage_row;
  pg_columns_view : list columns_row;
  pg_stored : string → string → list (option pyobject);
  pg_fails : sql_query → bool;
  pg_other_text : string → list (option pyobject);
}.

Record connection := {
  conn_dsn : string;
  conn_server : pg_server;
}.

Definition cursor : Type := pg_server.

(** [psycopg2.connect(dsn)] (psycopg2 2.9): without a dsn the connection
    string is empty and libpq falls back to its defaults, so the attempt is
    accepted or refused like any other; a refused attempt raises
    [OperationalError]. *)
Definition connect (srv : pg_server) (dsn : option string) : io connection :=
  λ tr,
    let s := default "" dsn in
    if pg_accepts srv s
    then (Ok {| conn_dsn := s; conn_server := srv |}, tr ++ [Connected s])
    else (Raise OperationalError, tr).

(** [conn.cursor()] *)
Definition conn_cursor (conn : connection) : cursor := conn_server conn.

(** [conn.close()] *)
Definition close (conn : connection) : io () :=
  λ tr, (Ok (), tr ++ [Closed]).

(** *** The statements, interpreted over the snapshot *)

(** [SELECT table_name FROM information_schema.tables
     WHERE table_schema = 'public'] *)
Definition select_tables (srv : pg_server) : list string :=
  t_table_name <$>
    filter (λ r, t_table_schema r = "public") (pg_tables_view srv).

(** [SELECT kcu.column_name FROM table_constraints tc
     JOIN key_column_usage kcu ON tc.constraint_name = kcu.constraint_name
     WHERE tc.table_name = %s AND tc.constraint_type = 'PRIMARY KEY'] *)
Definition select_primary_keys (srv : pg_server) (table : string)
  : list string :=
  tc ← filter (λ tc, tc_table_name tc = table
                     ∧ tc_constraint_type tc = "PRIMARY KEY")
         (pg_table_constraints srv);
  kcu ← filter (λ kcu, tc_constraint_name tc = kcu_constraint_name kcu)
          (pg_key_column_usage srv);
  [kcu_column_name kcu].

(** [SELECT kcu.column_name, ccu.table_name, ccu.column_name
     FROM table_constraints tc
     JOIN key_column_usage kcu ON tc.constraint_name = kcu.constraint_name
     JOIN constraint_column_usage ccu
       ON ccu.constraint_name = tc.constraint_name
     WHERE tc.constraint_type = 'FOREIGN KEY' AND kcu.table_name = %s] *)
Definition select_foreign_keys (srv : pg_server) (table : string)
  : list (string * string * string) :=
  tc ← filter (λ tc, tc_constraint_type tc = "FOREIGN KEY")
         (pg_table_constraints srv);
  kcu ← filter (λ kcu, tc_constraint_name tc = kcu_constraint_name kcu
                       ∧ kcu_table_name kcu = table)
          (pg_key_column_usage srv);
  ccu ← filter (λ ccu, ccu_constraint_name ccu = tc_constraint_name tc)
          (pg_constraint_column_usage srv);
  [(kcu_column_name kcu, ccu_table_name ccu, ccu_column_name ccu)].

(** The catalog rows behind [SELECT ... FROM information_schema.columns
     WHERE table_name = %s ORDER BY ordinal_position] *)
Definition columns_by_position (srv : pg_server) (table : string)
  : list columns_row :=
  order_by_ordinal_position
    (filter (λ r, c_table_name r = table) (pg_columns_view srv)).

(** [SELECT column_name, data_type FROM information_schema.columns
     WHERE table_name = %s ORDER BY ordinal_position] *)
Definition select_columns (srv : pg_server) (table : string)
  : list (string * string) :=
  (λ r, (c_column_name r, c_data_type r)) <$> columns_by_position srv table.

(** The rows of a statement [parse_select] reads: the stored values of the
    column, without the NULLs under [IS NOT NULL], at most five under
    [LIMIT 5]. *)
Definition run_select (srv : pg_server) (q : select_statement)
  : list (option pyobject) :=
  let stored := pg_stored srv (sel_table q) (sel_column q) in
  let kept := if sel_not_null q then filter is_Some stored else stored in
  if sel_limit_5 q then take 5 kept else kept.

(** The rows the server returns for the text of a sampling statement. *)
Definition run_text (srv : pg_server) (text : string)
  : list (option pyobject) :=
  match parse_select text with
  | Some q => run_select srv q
  | None => pg_other_text srv text
  end.

(** The sampling statement of [get_columns], sent as the text the f-string
    builds. *)
Definition select_sample (srv : pg_server) (table column_name : string)
  : list (option pyobject) :=
  run_text srv (sample_statement table column_name).

(** The type of the rows each statement returns. *)
Definition row (q : sql_query) : Type :=
  match q with
  | SelectTables => string
  | SelectPrimaryKeys _ => string
  | SelectForeignKeys _ => (string * string * string)%type
  | SelectColumns _ => (string * string)%type
  | SelectSample _ _ => option pyobject
  end.

Definition run_query (srv : pg_server) (q : sql_query) : list (row q) :=
  match q with
  | SelectTables => select_tables srv
  | SelectPrimaryKeys table => select_primary_keys srv table
  | SelectForeignKeys table => select_foreign_keys srv table
  | SelectColumns table => select_columns srv table
  | SelectSample table column_name => select_sample srv table column_name
  end.

(** [cur.execute(q)] followed by [cur.fetchall()] *)
Definition execute (cur : cursor) (q : sql_query) : result (list (row q)) :=
  if pg_fails cur q then Raise DatabaseError else Ok (run_query cur q).

(** *** The functions of the script *)

(** [get_primary_keys(cur, table)] *)
Definition get_primary_keys (cur : cursor) (table : string)
  : result (gset string) :=
  rows ← execute cur (SelectPrimaryKeys table);
  mret (list_to_set rows).

(** [fk_map.setdefault(col, []).append(ref)] *)
Definition setdefault_append (fk_map : gmap string (list foreign_key_ref))
    (col : string) (ref : foreign_key_ref)
  : gmap string (list foreign_key_ref) :=
  <[col := default [] (fk_map !! col) ++ [ref]]> fk_map.

(** The loop [for col, ft, fc in cur.fetchall()] of
    [get_foreign_keys_by_column]. *)
Definition collect_foreign_keys (rows : list (string * string * string))
    (fk_map : gmap string (list foreign_key_ref))
  : gmap string (list foreign_key_ref) :=
  foldl (λ fk_map '(col, ft, fc),
           setdefault_append fk_map col
             {| target_table := ft; target_column := fc |})
    fk_map rows.

(** [get_foreign_keys_by_column(cur, table)] *)
Definition get_foreign_keys_by_column (cur : cursor) (table : string)
  : result (gmap string (list foreign_key_ref)) :=
  rows ← execute cur (SelectForeignKeys table);
  mret (collect_foreign_keys rows ∅).

(** The dict appended to [columns] in the loop of [get_columns]. *)
Definition describe_column (primary_keys : gset string)
    (foreign_keys_map : gmap string (list foreign_key_ref))
    (column_name data_type : string) (samples : list string)
  : column_descriptor :=
  {| col_name := column_name;
     col_type := upper data_type;
     col_primary_key := bool_decide (column_name ∈ primary_keys);
     col_foreign_keys := default [] (foreign_keys_map !! column_name);
     col_description := "";
     col_value_samples := samples |}.

(** The loop [for column_name, data_type in cur.fetchall()] of
    [get_columns], with the list [columns] built so far. *)
Fixpoint sample_columns (cur : cursor) (table : string)
    (primary_keys : gset string)
    (foreign_keys_map : gmap string (list foreign_key_ref))
    (rows : list (string * string)) (columns : list column_descriptor)
  : result (list column_descriptor) :=
  match rows with
  | [] => mret columns
  | (column_name, data_type) :: rows' =>
      sampled ← execute cur (SelectSample table column_name);
      let samples := str <$> sampled in
      sample_columns cur table primary_keys foreign_keys_map rows'
        (columns ++ [describe_column primary_keys foreign_keys_map
                       column_name data_type samples])
  end.

(** [get_columns(cur, table)] *)
Definition get_columns (cur : cursor) (table : string)
  : result (list column_descriptor) :=
  primary_keys ← get_primary_keys cur table;
  foreign_keys_map ← get_foreign_keys_by_column cur table;
  rows ← execute cur (SelectColumns table);
  sample_columns cur table primary_keys foreign_keys_map rows [].

(** [get_tables(cur)] *)
Definition get_tables (cur : cursor) : result (list string) :=
  rows ← execute cur SelectTables;
  mret (sorted rows).

(** [fill_table_info(cur, table_name)] *)
Definition fill_table_info (cur : cursor) (table_name : string)
  : result table_record :=
  columns ← get_columns cur table_name;
  mret {| tbl_name := table_name;
          tbl_columns := columns;
          tbl_description := "";
          tbl_table_str := "" |}.

(** [{t.lower(): t for t in pg_tables}]: a later name replaces an earlier
    one with the same key. *)
Definition lower_map (pg_tables : list string) : gmap string string :=
  foldl (λ m t, <[lower t := t]> m) ∅ pg_tables.

(** Lines 185-195 of [get_bird_pg_schema_dict]: the name under which a
    manifest table is looked up, or [None] where the loop [continue]s. *)
Definition resolve_table (pg_tables : list string)
    (pg_tables_lower : gmap string string) (table : string) : option string :=
  if bool_decide (table ∉ pg_tables) then
    let table_lower := lower table in
    match pg_tables_lower !! table_lower with
    | Some resolved => Some resolved
    | None => None
    end
  else Some table.

(** [schema[db_id]["tables"][table] = info] *)
Definition store_table (schema : dict database_record)
    (db_id table : string) (info : table_record)
  : result (dict database_record) :=
  match dict_get schema db_id with
  | None => Raise (KeyError db_id)
  | Some rec =>
      Ok (dict_set schema db_id
            {| db_name := db_name rec;
               db_tables := dict_set (db_tables rec) table info |})
  end.

(** The loop [for table in db_info["table_names_original"]]. *)
Fixpoint for_tables (cur : cursor) (pg_tables : list string)
    (pg_tables_lower : gmap string string) (db_id : string)
    (names : list string) (schema : dict database_record)
  : result (dict database_record) :=
  match names with
  | [] => mret schema
  | table :: names' =>
      match resolve_table pg_tables pg_tables_lower table with
      | None => for_tables cur pg_tables pg_tables_lower db_id names' schema
      | Some table =>
          info ← fill_table_info cur table;
          schema' ← store_table schema db_id table info;
          for_tables cur pg_tables pg_tables_lower db_id names' schema'
      end
  end.

(** The loop [for db_info in dev_tables_json]. *)
Fixpoint for_db_infos (cur : cursor) (pg_tables : list string)
    (pg_tables_lower : gmap string string)
    (dev_tables_json : list db_info) (schema : dict database_record)
  : result (dict database_record) :=
  match dev_tables_json with
  | [] => mret schema
  | info :: rest =>
      let id := db_id info in
      let schema0 :=
        dict_set schema id {| db_name := id; db_tables := [] |} in
      schema' ← for_tables cur pg_tables pg_tables_lower id
                   (table_names_original info) schema0;
      for_db_infos cur pg_tables pg_tables_lower rest schema'
  end.

(** [get_bird_pg_schema_dict(dev_tables_json, pg_conn_str)] *)
Definition get_bird_pg_schema_dict (srv : pg_server)
    (dev_tables_json : list db_info) (pg_conn_str : option string)
  : io (dict database_record) :=
  conn ← connect srv pg_conn_str;
  let cur := conn_cursor conn in
  pg_tables ← lift (get_tables cur);
  let pg_tables_lower := lower_map pg_tables in
  schema ← lift (for_db_infos cur pg_tables pg_tables_lower
                   dev_tables_json []);
  close conn;;
  mret schema.

(** Python truthiness of an optional string: [None] and [""] are false. *)
Definition truthy (s : option string) : bool :=
  match s with
  | None | Some "" => false
  | Some _ => true
  end.

(** The [__main__] block from line 234 on.  [args_pg_conn_str] is
    [args.pg_conn_str], [environ] is
    [os.getenv("POSTGRES_CONNECTION_STRING")], and the manifest is the
    parsed [dev_tables.json].  The module-level name [pg_conn_str] is
    [None] while unbound and [Some v] once assigned the value [v]. *)
Definition main (srv : pg_server) (args_pg_conn_str environ : option string)
    (dev_tables_json : list db_info) : io (dict database_record) :=
  pg_conn_str ←
    match args_pg_conn_str with
    | None =>
        let pg_conn_str := environ in
        if negb (truthy pg_conn_str)
        then lift (Raise (RuntimeError "Missing POSTGRES_CONNECTION_STRING"))
        else
          let pg_conn_str := args_pg_conn_str in
          mret (Some pg_conn_str)
    | Some _ => mret None
    end;
  match pg_conn_str with
  | None => lift (Raise (NameError "pg_conn_str"))
  | Some pg_conn_str => get_bird_pg_schema_dict srv dev_tables_json pg_conn_str
  end.

(** *** Vocabulary of the properties *)

(** The references the rows of the foreign-key statement give for one
    source column, in the order of the rows. *)
Definition refs_of (column_name : string)
    (rows : list (string * string * string)) : list foreign_key_ref :=
  omap (λ '(col, ft, fc),
          if decide (col = column_name)
          then Some {| target_table := ft; target_column := fc |}
          else None) rows.

(** The descriptor [get_columns] builds for one row of the catalog. *)
Definition descriptor_of (cur : cursor) (table : string) (r : columns_row)
  : column_descriptor :=
  describe_column
    (list_to_set (select_primary_keys cur table))
    (collect_foreign_keys (select_foreign_keys cur table) ∅)
    (c_column_name r) (c_data_type r)
    (str <$> select_sample cur table (c_column_name r)).

(** The last manifest entry for a [db_id]. *)
Definition last_entry (dev_tables_json : list db_info) (id : string)
  : option db_info :=
  last (filter (λ info, db_id info = id) dev_tables_json).

(** Some name of the list is looked up under the live name [key]. *)
Definition resolves_to (pg_tables : list string)
    (pg_tables_lower : gmap string string) (names : list string)
    (key : string) : Prop :=
  Exists (λ table,
            resolve_table pg_tables pg_tables_lower table = Some key) names.

(** The record of a database holds exactly the live tables the names of a
    manifest entry are looked up under, each as [fill_table_info] returns
    it. *)
Definition holds_tables_of (cur : cursor) (pg_tables : list string)
    (pg_tables_lower : gmap string string) (names : list string)
    (rec : database_record) : Prop :=
  (∀ key, resolves_to pg_tables pg_tables_lower names key →
          ∃ info, fill_table_info cur key = Ok info
                  ∧ dict_get (db_tables rec) key = Some info)
  ∧ (∀ key, ¬ resolves_to pg_tables pg_tables_lower names key →
            dict_get (db_tables rec) key = None).

(** The live table names as [get_tables] lists them. *)
Definition live_tables (srv : pg_server) : list string :=
  sorted (select_tables srv).

(** How often a trace opens and closes a connection. *)
Definition opens (tr : list event) : nat :=
  length (filter (λ e, is_connect e = true) tr).
Definition closes (tr : list event) : nat :=
  length (filter (λ e, e = Closed) tr).

(** The first and the last live name with a given lower-casing. *)
Definition first_match (pg_tables : list string) (table_lower : string)
  : option string :=
  head (filter (λ t, lower t = table_lower) pg_tables).
Definition last_match (pg_tables : list string) (table_lower : string)
  : option string :=
  last (filter (λ t, lower t = table_lower) pg_tables).



(** No statement [get_columns] executes for the table fails. *)
Definition statements_succeed (srv : pg_server) (table : string) : Prop :=
  pg_fails srv (SelectPrimaryKeys table) = false
  ∧ pg_fails srv (SelectForeignKeys table) = false
  ∧ pg_fails srv (SelectColumns table) = false
  ∧ Forall (λ r, pg_fails srv (SelectSample table (c_column_name r)) = false)
      (columns_by_position srv table).

(** No statement fails for any table the names are looked up under. *)
Definition tables_succeed (srv : pg_server) (pg_tables : list string)
    (pg_tables_lower : gmap string string) (names : list string) : Prop :=
  Forall (λ table,
            match resolve_table pg_tables pg_tables_lower table with
            | Some key => statements_succeed srv key
            | None => True
            end) names.

Definition manifest_succeeds (srv : pg_server) (pg_tables : list string)
    (pg_tables_lower : gmap string string) (dev_tables_json : list db_info)
  : Prop :=
  Forall (λ entry, tables_succeed srv pg_tables pg_tables_lower
                     (table_names_original entry)) dev_tables_json.

(** The keys of a Python dict after the keys of a list were assigned one
    after the other: each key once, in the order of first occurrence. *)
Fixpoint first_occurrences (keys : list string) : list string :=
  match keys with
  | [] => []
  | k :: rest => k :: filter (λ k', k' ≠ k) (first_occurrences rest)
  end.

(** The live names the table names of a manifest entry are looked up
    under, in the order of the entry. *)
Definition resolved_names (pg_tables : list string)
    (pg_tables_lower : gmap string string) (names : list string)
  : list string :=
  omap (resolve_table pg_tables pg_tables_lower) names.

End Script.

(** ** An ASCII implementation of the builtins, and sample servers *)

Inductive ascii_object :=
  | PyInt (z : Z)
  | PyStr (s : string)
  | PyBool (b : bool).

Definition ascii_str (x : option ascii_object) : string :=
  match x with
  | None => "None"
  | Some (PyInt z) => pretty z
  | Some (PyStr s) => s
  | Some (PyBool true) => "True"
  | Some (PyBool false) => "False"
  end.

Definition shift_letter (lo hi : N) (delta : Z) (c : ascii) : ascii :=
  let n := N_of_ascii c in
  if bool_decide (lo ≤ n ≤ hi)%N then ascii_of_N (Z.to_N (Z.of_N n + delta))
  else c.

Fixpoint map_chars (f : ascii → ascii) (s : string) : string :=
  match s with
  | EmptyString => EmptyString
  | String c s' => String (f c) (map_chars f s')
  end.

(** [str.lower] and [str.upper] on ASCII text. *)
Definition ascii_lower : string → string := map_chars (shift_letter 65 90 32).
Definition ascii_upper : string → string := map_chars (shift_letter 97 122 (-32)).

Definition ascii_builtins : Builtins :=
  {| pyobject := ascii_object;
     str := ascii_str;
     lower := ascii_lower;
     upper := ascii_upper |}.

(** A shop database: [Customers(id, name)] with primary key [id];
    [orders(id, customer_id, note)] with primary key [id] and a foreign key
    from [customer_id] to [Customers.id]. *)
Definition shop_columns : list columns_row :=
  [ {| c_table_name := "orders"; c_column_name := "note";
       c_data_type := "text"; c_ordinal_position := 3 |};
    {| c_table_name := "Customers"; c_column_name := "id";
       c_data_type := "integer"; c_ordinal_position := 1 |};
    {| c_table_name := "orders"; c_column_name := "id";
       c_data_type := "integer"; c_ordinal_position := 1 |};
    {| c_table_name := "Customers"; c_column_name := "name";
       c_data_type := "text"; c_ordinal_position := 2 |};
    {| c_table_name := "orders"; c_column_name := "customer_id";
       c_data_type := "integer"; c_ordinal_position := 2 |} ].

Definition shop_stored (table column_name : string)
  : list (option (@pyobject ascii_builtins)) :=
  if bool_decide (table = "Customers") then
    if bool_decide (column_name = "id")
    then [Some (PyInt 1); Some (PyInt 2)]
    else [Some (PyStr "Ada"); None]
  else
    if bool_decide (column_name = "id")
    then (λ z, Some (PyInt z)) <$> [10; 11; 12; 13; 14; 15; 16]
    else if bool_decide (column_name = "customer_id")
    then [Some (PyInt 1); None; Some (PyInt 2); Some (PyInt 1);
          Some (PyInt 1); Some (PyInt 2); Some (PyInt 2)]
    else [None; None; None; None; None; None; None].

Definition shop_server (fails : sql_query → bool)
  : @pg_server ascii_builtins :=
  {| pg_accepts := λ dsn, bool_decide (dsn = "dbname=bird");
     pg_tables_view :=
       [ {| t_table_schema := "public"; t_table_name := "orders" |};
         {| t_table_schema := "pg_catalog"; t_table_name := "pg_class" |};
         {| t_table_schema := "public"; t_table_name := "Customers" |} ];
     pg_table_constraints :=
       [ {| tc_constraint_name := "Customers_pkey";
            tc_table_name := "Customers";
            tc_constraint_type := "PRIMARY KEY" |};
         {| tc_constraint_name := "orders_pkey";
            tc_table_name := "orders";
            tc_constraint_type := "PRIMARY KEY" |};
         {| tc_constraint_name := "orders_customer_id_fkey";
            tc_table_name := "orders";
            tc_constraint_type := "FOREIGN KEY" |} ];
     pg_key_column_usage :=
       [ {| kcu_constraint_name := "Customers_pkey";
            kcu_table_name := "Customers"; kcu_column_name := "id" |};
         {| kcu_constraint_name := "orders_pkey";
            kcu_table_name := "orders"; kcu_column_name := "id" |};
         {| kcu_constraint_name := "orders_customer_id_fkey";
            kcu_table_name := "orders"; kcu_column_name := "customer_id" |} ];
     pg_constraint_column_usage :=
       [ {| ccu_constraint_name := "Customers_pkey";
            ccu_table_name := "Customers"; ccu_column_name := "id" |};
         {| ccu_constraint_name := "orders_pkey";
            ccu_table_name := "orders"; ccu_column_name := "id" |};
         {| ccu_constraint_name := "orders_customer_id_fkey";
            ccu_table_name := "Customers"; ccu_column_name := "id" |} ];
     pg_columns_view := shop_columns;
     pg_stored := shop_stored;
     pg_fails := fails;
     pg_other_text := λ _, [] |}.

(** Every statement succeeds. *)
Definition healthy : sql_query → bool := λ _, false.

(** Sampling [orders.note] fails. *)
Definition note_unreadable (q : sql_query) : bool :=
  match q with
  | SelectSample table column_name =>
      bool_decide (table = "orders" ∧ column_name = "note")
  | _ => false
  end.

Definition shop_entry : db_info :=
  {| db_id := "shop";
     table_names_original := ["customers"; "orders"; "ghost_table"] |}.

Definition shop_manifest : list db_info := [shop_entry].

(** The same [db_id] twice. *)
Definition customers_entry : db_info :=
  {| db_id := "shop"; table_names_original := ["Customers"] |}.
Definition orders_entry : db_info :=
  {| db_id := "shop"; table_names_original := ["orders"] |}.

(** What the script computes on these inputs. *)
Definition schema_of (run : result (dict database_record) * list event)
  : dict database_record :=
  match run with
  | (Ok schema, _) => schema
  | (Raise _, _) => []
  end.

Definition shop_schema : dict database_record :=
  Eval vm_compute in
    schema_of (get_bird_pg_schema_dict (H := ascii_builtins)
                 (shop_server healthy) shop_manifest (Some "dbname=bird") []).

Definition repeated_schema : dict database_record :=
  Eval vm_compute in
    schema_of (get_bird_pg_schema_dict (H := ascii_builtins)
                 (shop_server healthy) [customers_entry; orders_entry]
                 (Some "dbname=bird") []).

Definition orders_columns : list column_descriptor :=
  Eval vm_compute in
    match get_columns (H := ascii_builtins) (shop_server healthy) "orders" with
    | Ok columns => columns
    | Raise _ => []
    end.

Definition early_entry : db_info :=
  {| db_id := "shop";
     table_names_original := ["customers"; "ghost_table"] |}.

Definition superseded_schema : dict database_record :=
  Eval vm_compute in
    schema_of (get_bird_pg_schema_dict (H := ascii_builtins)
                 (shop_server healthy) [early_entry; orders_entry]
                 (Some "dbname=bird") []).







Definition orders_info : table_record :=
  {| tbl_name := "orders";
     tbl_columns := orders_columns;
     tbl_description := "";
     tbl_table_str := "" |}.

(** Two live tables whose names differ only by case. *)
Definition twin_server : @pg_server ascii_builtins :=
  {| pg_accepts := λ _, true;
     pg_tables_view :=
       [ {| t_table_schema := "public"; t_table_name := "customers" |};
         {| t_table_schema := "public"; t_table_name := "Customers" |} ];
     pg_table_constraints := [];
     pg_key_column_usage := [];
     pg_constraint_column_usage := [];
     pg_columns_view := [];
     pg_stored := λ _ _, [];
     pg_fails := healthy;
     pg_other_text := λ _, [] |}.


(** ** Properties *)

Section Properties.
Context `{Builtins}.

(** *** The error monad *)

Lemma bind_Ok {A B} (m : result A) (f : A → result B) (b : B) :
  m ≫= f = Ok b → ∃ a, m = Ok a ∧ f a = Ok b.
Proof. destruct m as [a|e]; simpl; [eauto | discriminate]. Qed.

Lemma execute_Ok (cur : cursor) (q : sql_query) (rows : list (row q)) :
  execute cur q = Ok rows → pg_fails cur q = false ∧ rows = run_query cur q.
Proof.
  unfold execute. destruct (pg_fails cur q); [discriminate|].
  intros [= <-]. done.
Qed.

Ltac inv_bind H :=
  let a := fresh "a" in
  let Ha := fresh "Ha" in
  apply bind_Ok in H as (a & Ha & H).

Lemma ret_Ok {A} (a b : A) : mret a = Ok b → a = b.
Proof. by intros [= ->]. Qed.

Ltac inv_execute H :=
  match type of H with
  | execute ?cur ?q = Ok _ => apply (execute_Ok cur q) in H as [_ ->]
  end.

(** Decomposes a successful run into its successful steps. *)
Ltac inv_run :=
  repeat match goal with
  | H : execute _ _ = Ok _ |- _ => inv_execute H
  | H : mret _ = Ok _ |- _ => apply ret_Ok in H; subst
  | H : _ ≫= _ = Ok _ |- _ => apply bind_Ok in H as (? & ? & H)
  end.

(** *** Insertion-ordered dicts *)

Lemma dict_get_set_eq {V} (d : dict V) (k : string) (v : V) :
  dict_get (dict_set d k v) k = Some v.
Proof.
  induction d as [|[k' v'] d IH]; simpl.
  - by rewrite decide_True.
  - destruct (decide (k' = k)) as [->|Hne]; simpl.
    + by rewrite decide_True.
    + by rewrite decide_False.
Qed.

Lemma dict_get_set_ne {V} (d : dict V) (k k' : string) (v : V) :
  k ≠ k' → dict_get (dict_set d k v) k' = dict_get d k'.
Proof.
  intros Hne. induction d as [|[k0 v0] d IH]; simpl.
  - by rewrite decide_False.
  - destruct (decide (k0 = k)) as [->|Hk]; simpl.
    + by rewrite !decide_False.
    + destruct (decide (k0 = k')); [done | apply IH].
Qed.

Lemma dict_keys_set {V} (d : dict V) (k : string) (v : V) :
  dict_keys (dict_set d k v) =
    if bool_decide (k ∈ dict_keys d) then dict_keys d else dict_keys d ++ [k].
Proof.
  unfold dict_keys. induction d as [|[k0 v0] d IH]; [done|].
  cbn [dict_set]. destruct (decide (k0 = k)) as [->|Hk]; rewrite !fmap_cons.
  - rewrite bool_decide_eq_true_2; [done | left].
  - rewrite IH. cbn [fst]. case_bool_decide as Hin.
    + rewrite bool_decide_eq_true_2; [done | by right].
    + rewrite bool_decide_eq_false_2; [done|].
      intros Hin'. apply elem_of_cons in Hin' as [->|?]; done.
Qed.

(** *** Column metadata *)

Lemma sample_columns_Ok (cur : cursor) (table : string)
    (primary_keys : gset string)
    (foreign_keys_map : gmap string (list foreign_key_ref))
    (rows : list (string * string)) (columns0 columns : list column_descriptor) :
  sample_columns cur table primary_keys foreign_keys_map rows columns0
    = Ok columns →
  columns = columns0 ++
    ((λ '(column_name, data_type),
        describe_column primary_keys foreign_keys_map column_name data_type
          (str <$> select_sample cur table column_name)) <$> rows).
Proof.
  revert columns0. induction rows as [|[column_name data_type] rows IH];
    intros columns0 Hrun; simpl in Hrun.
  - injection Hrun as <-. by rewrite app_nil_r.
  - inv_bind Hrun. inv_execute Ha.
    apply IH in Hrun as ->. by rewrite <- app_assoc.
Qed.

Lemma get_columns_Ok (cur : cursor) (table : string)
    (columns : list column_descriptor) :
  get_columns cur table = Ok columns →
  columns = descriptor_of cur table <$> columns_by_position cur table.
Proof.
  unfold get_columns, get_primary_keys, get_foreign_keys_by_column.
  intros Hrun. inv_run.
  apply sample_columns_Ok in Hrun as ->. simpl.
  unfold select_columns. by rewrite <- list_fmap_compose.
Qed.

Lemma descriptor_of_columns (cur : cursor) (table : string)
    (columns : list column_descriptor) (d : column_descriptor) :
  get_columns cur table = Ok columns → d ∈ columns →
  ∃ r, r ∈ columns_by_position cur table ∧ d = descriptor_of cur table r.
Proof.
  intros ->%get_columns_Ok (r & -> & Hr)%list_elem_of_fmap. eauto.
Qed.

Lemma collect_foreign_keys_lookup (rows : list (string * string * string))
    (fk_map : gmap string (list foreign_key_ref)) (column_name : string) :
  default [] (collect_foreign_keys rows fk_map !! column_name)
  = default [] (fk_map !! column_name) ++ refs_of column_name rows.
Proof.
  revert fk_map. induction rows as [|[[col ft] fc] rows IH]; intros fk_map.
  - by rewrite app_nil_r.
  - unfold collect_foreign_keys in *. cbn [foldl]. rewrite IH.
    unfold setdefault_append, refs_of. cbn [omap list_omap].
    destruct (decide (col = column_name)) as [->|Hne].
    + rewrite lookup_insert_eq. cbn [default id]. by rewrite <- app_assoc.
    + by rewrite lookup_insert_ne.
Qed.

Lemma refs_of_elem (column_name : string)
    (rows : list (string * string * string)) (ref : foreign_key_ref) :
  ref ∈ refs_of column_name rows
  ↔ (column_name, target_table ref, target_column ref) ∈ rows.
Proof.
  unfold refs_of. rewrite list_elem_of_omap. split.
  - intros ([[col ft] fc] & Hin & Hsome).
    destruct (decide (col = column_name)) as [->|]; [|done].
    by injection Hsome as <-.
  - intros Hin. eexists; split; [exact Hin|]. cbn.
    rewrite decide_True; [by destruct ref | done].
Qed.

#[local] Instance by_ordinal_position_total : Total by_ordinal_position.
Proof. intros r1 r2. unfold by_ordinal_position. lia. Qed.

#[local] Instance by_ordinal_position_trans : Transitive by_ordinal_position.
Proof. intros r1 r2 r3. unfold by_ordinal_position. lia. Qed.

#[local] Instance str_le_total : Total str_le.
Proof. intros s1 s2. apply String.leb_total. Qed.

(** What the primary-key statement returns, in terms of the catalog. *)
Lemma select_primary_keys_elem (srv : pg_server) (table column_name : string) :
  column_name ∈ select_primary_keys srv table
  ↔ ∃ tc kcu,
      tc ∈ pg_table_constraints srv
      ∧ kcu ∈ pg_key_column_usage srv
      ∧ tc_table_name tc = table
      ∧ tc_constraint_type tc = "PRIMARY KEY"
      ∧ tc_constraint_name tc = kcu_constraint_name kcu
      ∧ kcu_column_name kcu = column_name.
Proof.
  unfold select_primary_keys. rewrite list_elem_of_bind. split.
  - intros (tc & (kcu & Hcol%list_elem_of_singleton & Hkcu)%list_elem_of_bind
               & Htc).
    apply list_elem_of_filter in Hkcu as [? ?].
    apply list_elem_of_filter in Htc as [[? ?] ?].
    by exists tc, kcu.
  - intros (tc & kcu & ? & ? & ? & ? & ? & <-).
    exists tc. split; [|by apply list_elem_of_filter].
    apply list_elem_of_bind. exists kcu.
    split; [by apply list_elem_of_singleton | by apply list_elem_of_filter].
Qed.

(** *** Claims about the column metadata builder *)


Lemma columns_by_position_elem (srv : pg_server) (table : string)
    (r : columns_row) :
  r ∈ columns_by_position srv table
  ↔ r ∈ pg_columns_view srv ∧ c_table_name r = table.
Proof.
  unfold columns_by_position, order_by_ordinal_position.
  rewrite merge_sort_Permutation, list_elem_of_filter. tauto.
Qed.

Lemma get_columns_names (cur : cursor) (table : string)
    (columns : list column_descriptor) :
  get_columns cur table = Ok columns →
  col_name <$> columns = c_column_name <$> columns_by_position cur table.
Proof. intros ->%get_columns_Ok. by rewrite <- list_fmap_compose. Qed.


(** C3: [get_columns] produces one descriptor per catalog column of the
    table.  For every row the foreign-key statement returns whose source
    is such a column, a descriptor of that column holds the row's
    reference; the [foreign_keys] list of every descriptor is, in row
    order, the references of the rows with its column as source, and is
    empty when there is no such row. *)
Theorem foreign_keys_follow_rows (cur : cursor) (table : string)
    (columns : list column_descriptor) :
  get_columns cur table = Ok columns →
  col_name <$> columns = c_column_name <$> columns_by_position cur table
  ∧ (∀ src ft fc r,
       (src, ft, fc) ∈ run_query cur (SelectForeignKeys table) →
       r ∈ pg_columns_view cur →
       c_table_name r = table →
       c_column_name r = src →
       ∃ d, d ∈ columns
            ∧ col_name d = src
            ∧ {| target_table := ft; target_column := fc |}
              ∈ col_foreign_keys d)
  ∧ (∀ d, d ∈ columns →
       col_foreign_keys d
         = refs_of (col_name d) (run_query cur (SelectForeignKeys table))
       ∧ ((∀ ft fc,
             (col_name d, ft, fc)
             ∉ run_query cur (SelectForeignKeys table)) →
          col_foreign_keys d = [])).
Proof.
  intros Hcols. split; [by apply get_columns_names|].
  assert (∀ r, col_foreign_keys (descriptor_of cur table r)
               = refs_of (c_column_name r) (select_foreign_keys cur table))
    as Hrefs.
  { intros r. cbn [descriptor_of describe_column col_foreign_keys].
    by rewrite collect_foreign_keys_lookup, lookup_empty. }
  split.
  - intros src ft fc r Hrow Hr Htable Hsrc.
    exists (descriptor_of cur table r). split; [|split; [done|]].
    + apply get_columns_Ok in Hcols as ->.
      apply list_elem_of_fmap_2. by apply columns_by_position_elem.
    + rewrite Hrefs, Hsrc. by apply refs_of_elem.
  - intros d Hd.
    destruct (descriptor_of_columns _ _ _ _ Hcols Hd) as (r & _ & ->).
    rewrite Hrefs. cbn [descriptor_of describe_column col_name run_query].
    split; [done|]. intros Hnone.
    destruct (refs_of _ _) as [|ref refs] eqn:Hlist; [done|].
    assert (ref ∈ refs_of (c_column_name r) (select_foreign_keys cur table))
      as Hin by (rewrite Hlist; left).
    apply refs_of_elem in Hin. by apply Hnone in Hin.
Qed.

(** *** The sampling statement for names without a double quote *)

Lemma append_cons (c : ascii) (s1 s2 : string) :
  String c s1 +:+ s2 = String c (s1 +:+ s2).
Proof. reflexivity. Qed.

Lemma strip_prefix_app (prefix text : string) :
  strip_prefix prefix (prefix +:+ text) = Some text.
Proof.
  induction prefix as [|a prefix IH]; [by destruct text|].
  rewrite append_cons. cbn [strip_prefix]. by rewrite decide_True.
Qed.

Lemma quote_app (name rest : string) :
  quote name +:+ rest = String dquote (name +:+ String dquote rest).
Proof.
  unfold quote. rewrite append_cons. f_equal.
  induction name as [|c name IH]; [done|].
  rewrite !append_cons. by rewrite IH.
Qed.

Lemma read_identifier_plain (name rest : string) :
  has_dquote name = false →
  match rest with String c _ => c ≠ dquote | EmptyString => True end →
  read_identifier (name +:+ String dquote rest) = Some (name, rest).
Proof.
  intros Hplain Hrest. induction name as [|c name IH].
  - change ("" +:+ String dquote rest) with (String dquote rest).
    cbn [read_identifier]. rewrite decide_True by done.
    destruct rest as [|c rest]; [done|]. by rewrite decide_False.
  - rewrite append_cons. cbn [read_identifier has_dquote] in Hplain |- *.
    destruct (decide (c = dquote)); [done|]. by rewrite IH.
Qed.

Lemma quoted_identifier_quote (name rest : string) :
  has_dquote name = false →
  match rest with String c _ => c ≠ dquote | EmptyString => True end →
  quoted_identifier (quote name +:+ rest) = Some (name, rest).
Proof.
  intros Hplain Hrest. rewrite quote_app. cbn [quoted_identifier].
  rewrite decide_True by done. by apply read_identifier_plain.
Qed.

Lemma parse_sample_statement (table column_name : string) :
  has_dquote table = false →
  has_dquote column_name = false →
  parse_select (sample_statement table column_name)
  = Some {| sel_column := column_name; sel_table := table;
            sel_not_null := true; sel_limit_5 := true |}.
Proof.
  intros Htable Hcolumn. unfold parse_select, sample_statement.
  rewrite strip_prefix_app. cbn [mbind option_bind].
  rewrite quoted_identifier_quote by done. cbn [mbind option_bind].
  rewrite strip_prefix_app. cbn [mbind option_bind].
  rewrite quoted_identifier_quote by done. cbn [mbind option_bind].
  unfold where_not_null. rewrite strip_prefix_app.
  rewrite quoted_identifier_quote by done. cbn [mbind option_bind].
  change (strip_prefix " IS NOT NULL" " IS NOT NULL LIMIT 5;")
    with (Some " LIMIT 5;").
  cbn [mbind option_bind]. by rewrite decide_True.
Qed.

Lemma select_sample_plain (srv : pg_server) (table column_name : string) :
  has_dquote table = false →
  has_dquote column_name = false →
  select_sample srv table column_name
  = take 5 (filter is_Some (pg_stored srv table column_name)).
Proof.
  intros Htable Hcolumn. unfold select_sample, run_text.
  by rewrite parse_sample_statement.
Qed.


(** *** Table-name resolution *)

Lemma lower_map_fold (pg_tables : list string) (m : gmap string string)
    (table_lower : string) :
  foldl (λ m t, <[lower t := t]> m) m pg_tables !! table_lower
  = match last_match pg_tables table_lower with
    | Some t => Some t
    | None => m !! table_lower
    end.
Proof.
  unfold last_match. revert m.
  induction pg_tables as [|t pg_tables IH]; intros m; [done|].
  cbn [foldl]. rewrite IH, filter_cons.
  destruct (decide (lower t = table_lower)) as [Heq|Hne].
  - rewrite last_cons.
    destruct (last (filter _ pg_tables)); [done|].
    by rewrite Heq, lookup_insert_eq.
  - destruct (last (filter _ pg_tables)); [done|].
    by rewrite lookup_insert_ne.
Qed.

Lemma lower_map_lookup (pg_tables : list string) (table_lower : string) :
  lower_map pg_tables !! table_lower = last_match pg_tables table_lower.
Proof.
  unfold lower_map. rewrite lower_map_fold, lookup_empty.
  by destruct (last_match _ _).
Qed.

Lemma last_match_Some (pg_tables : list string) (table_lower t : string) :
  last_match pg_tables table_lower = Some t →
  t ∈ pg_tables ∧ lower t = table_lower.
Proof.
  unfold last_match.
  intros Hin%last_Some_elem_of%list_elem_of_filter. tauto.
Qed.

Lemma resolve_table_exact (pg_tables : list string)
    (pg_tables_lower : gmap string string) (table : string) :
  table ∈ pg_tables →
  resolve_table pg_tables pg_tables_lower table = Some table.
Proof.
  intros Hin. unfold resolve_table.
  rewrite bool_decide_eq_false_2; [done | by intros ?].
Qed.

Lemma resolve_table_fallback (pg_tables : list string)
    (pg_tables_lower : gmap string string) (table : string) :
  table ∉ pg_tables →
  resolve_table pg_tables pg_tables_lower table
  = pg_tables_lower !! lower table.
Proof.
  intros Hin. unfold resolve_table.
  rewrite bool_decide_eq_true_2; [|done].
  by destruct (pg_tables_lower !! lower table).
Qed.

Lemma resolve_table_live (pg_tables : list string) (table key : string) :
  resolve_table pg_tables (lower_map pg_tables) table = Some key →
  key ∈ pg_tables.
Proof.
  destruct (decide (table ∈ pg_tables)) as [Hin|Hin].
  - rewrite resolve_table_exact by done. by intros [= <-].
  - rewrite resolve_table_fallback, lower_map_lookup by done.
    by intros [? _]%last_match_Some.
Qed.

Lemma resolves_to_live (pg_tables names : list string) (key : string) :
  resolves_to pg_tables (lower_map pg_tables) names key → key ∈ pg_tables.
Proof.
  intros (table & _ & Hres)%Exists_exists. by eapply resolve_table_live.
Qed.

#[local] Instance resolves_to_dec (pg_tables : list string)
    (pg_tables_lower : gmap string string) (names : list string)
    (key : string) :
  Decision (resolves_to pg_tables pg_tables_lower names key).
Proof. unfold resolves_to. apply _. Defined.

(** *** Table and schema assembly *)

Lemma fill_table_info_Ok (cur : cursor) (table_name : string)
    (info : table_record) :
  fill_table_info cur table_name = Ok info →
  tbl_name info = table_name
  ∧ get_columns cur table_name = Ok (tbl_columns info).
Proof. unfold fill_table_info. intros Hrun. inv_run. done. Qed.

Lemma dict_get_None {V} (d : dict V) (k : string) :
  dict_get d k = None ↔ k ∉ dict_keys d.
Proof.
  unfold dict_keys. induction d as [|[k' v'] d IH]; cbn [dict_get].
  - split; [intros _ ?%elem_of_nil; done | done].
  - rewrite fmap_cons, not_elem_of_cons. cbn [fst].
    destruct (decide (k' = k)) as [->|Hne].
    + split; [done | intros [[] _]; done].
    + rewrite IH. split; [by split | by intros [_ ?]].
Qed.

Lemma for_tables_Ok (cur : cursor) (pg_tables : list string)
    (pg_tables_lower : gmap string string) (id : string)
    (names : list string) (schema schema' : dict database_record)
    (rec : database_record) :
  for_tables cur pg_tables pg_tables_lower id names schema = Ok schema' →
  dict_get schema id = Some rec →
  ∃ rec',
    dict_get schema' id = Some rec'
    ∧ db_name rec' = db_name rec
    ∧ (∀ key, resolves_to pg_tables pg_tables_lower names key →
              ∃ info, fill_table_info cur key = Ok info
                      ∧ dict_get (db_tables rec') key = Some info)
    ∧ (∀ key, ¬ resolves_to pg_tables pg_tables_lower names key →
              dict_get (db_tables rec') key = dict_get (db_tables rec) key)
    ∧ (∀ id', id' ≠ id → dict_get schema' id' = dict_get schema id').
Proof.
  revert schema rec.
  induction names as [|table names IH]; intros schema rec Hrun Hrec.
  - cbn in Hrun. inv_run. exists rec. unfold resolves_to.
    repeat split; try done. by intros key ?%Exists_nil.
  - cbn [for_tables] in Hrun.
    destruct (resolve_table pg_tables pg_tables_lower table)
      as [key0|] eqn:Hres.
    + inv_run. rename x into info, x0 into schema1, H0 into Hinfo, H1 into Hstore.
      unfold store_table in Hstore. rewrite Hrec in Hstore.
      injection Hstore as <-.
      destruct (IH _ _ Hrun (dict_get_set_eq _ _ _))
        as (rec' & Hrec' & Hname & Hyes & Hno & Hother).
      exists rec'. split; [done|]. split; [done|]. split; [|split].
      * intros key Hkey.
        destruct (decide (resolves_to pg_tables pg_tables_lower names key))
          as [Hlater|Hlater]; [by apply Hyes|].
        apply Exists_cons in Hkey as [Hkey|Hkey]; [|done].
        rewrite Hres in Hkey. injection Hkey as ->.
        exists info. split; [done|].
        rewrite (Hno _ Hlater). apply dict_get_set_eq.
      * intros key Hkey.
        rewrite Hno by (intros ?; apply Hkey; by apply Exists_cons_tl).
        cbn [db_tables]. apply dict_get_set_ne.
        intros ->. apply Hkey. by apply Exists_cons_hd.
      * intros id' Hid'. rewrite Hother by done. by apply dict_get_set_ne.
    + destruct (IH _ _ Hrun Hrec)
        as (rec' & Hrec' & Hname & Hyes & Hno & Hother).
      exists rec'. split; [done|]. split; [done|]. split; [|split; [|done]].
      * intros key [Hkey|Hkey]%Exists_cons; [congruence | by apply Hyes].
      * intros key Hkey. apply Hno. intros ?. apply Hkey.
        by apply Exists_cons_tl.
Qed.

Lemma for_db_infos_Ok (cur : cursor) (pg_tables : list string)
    (pg_tables_lower : gmap string string) (dev_tables_json : list db_info)
    (schema schema' : dict database_record) (id : string) :
  for_db_infos cur pg_tables pg_tables_lower dev_tables_json schema
    = Ok schema' →
  match last_entry dev_tables_json id with
  | Some entry =>
      ∃ rec, dict_get schema' id = Some rec
             ∧ db_name rec = id
             ∧ holds_tables_of cur pg_tables pg_tables_lower
                 (table_names_original entry) rec
  | None => dict_get schema' id = dict_get schema id
  end.
Proof.
  revert schema.
  induction dev_tables_json as [|entry rest IH]; intros schema Hrun.
  - cbn in Hrun. inv_run. done.
  - cbn [for_db_infos] in Hrun. inv_run.
    rename x into schema1, H0 into Htables.
    specialize (IH _ Hrun). unfold last_entry in *.
    rewrite filter_cons.
    destruct (decide (db_id entry = id)) as [<-|Hid].
    + rewrite last_cons. destruct (last (filter _ rest)); [done|].
      destruct (for_tables_Ok _ _ _ _ _ _ _ _ Htables (dict_get_set_eq _ _ _))
        as (rec' & Hrec' & Hname & Hyes & Hno & _).
      exists rec'. rewrite IH. by repeat split.
    + destruct (last (filter _ rest)); [done|].
      destruct (for_tables_Ok _ _ _ _ _ _ _ _ Htables (dict_get_set_eq _ _ _))
        as (_ & _ & _ & _ & _ & Hother).
      rewrite IH, Hother by done. by apply dict_get_set_ne.
Qed.

Lemma get_tables_Ok (cur : cursor) (pg_tables : list string) :
  get_tables cur = Ok pg_tables → pg_tables = live_tables cur.
Proof. unfold get_tables. intros Hrun. inv_run. done. Qed.

Lemma last_entry_elem (dev_tables_json : list db_info) (id : string)
    (entry : db_info) :
  last_entry dev_tables_json id = Some entry →
  entry ∈ dev_tables_json ∧ db_id entry = id.
Proof.
  unfold last_entry.
  intros Hin%last_Some_elem_of%list_elem_of_filter. tauto.
Qed.

Lemma last_entry_exists (dev_tables_json : list db_info) (entry : db_info) :
  entry ∈ dev_tables_json →
  is_Some (last_entry dev_tables_json (db_id entry)).
Proof.
  intros Hin. unfold last_entry. apply last_is_Some. intros Hnil.
  by eapply (filter_nil_not_elem_of _ _ entry).
Qed.

Lemma last_entry_repeated (pre mid post : list db_info)
    (first second : db_info) :
  (∀ entry, entry ∈ post → db_id entry ≠ db_id second) →
  last_entry (pre ++ first :: mid ++ second :: post) (db_id second)
  = Some second.
Proof.
  intros Hpost. unfold last_entry.
  replace (pre ++ first :: mid ++ second :: post)
    with ((pre ++ first :: mid) ++ second :: post)
    by (by rewrite <- app_assoc).
  rewrite filter_app, filter_cons_True by done.
  assert (filter (λ entry, db_id entry = db_id second) post = []) as ->.
  { induction post as [|entry post IH]; [done|].
    rewrite filter_cons_False by (apply Hpost; left).
    apply IH. intros ? ?. apply Hpost. by right. }
  apply last_snoc.
Qed.

(** A successful run: the connection was accepted, the trace gains one
    connect and one close, and the schema is what the manifest loop
    returns over the live tables. *)
Lemma run_Ok (srv : pg_server) (dev_tables_json : list db_info)
    (pg_conn_str : option string) (tr tr' : list event)
    (schema : dict database_record) :
  get_bird_pg_schema_dict srv dev_tables_json pg_conn_str tr
    = (Ok schema, tr') →
  ∃ dsn,
    dsn = default "" pg_conn_str
    ∧ tr' = tr ++ [Connected dsn; Closed]
    ∧ get_tables srv = Ok (live_tables srv)
    ∧ for_db_infos srv (live_tables srv) (lower_map (live_tables srv))
        dev_tables_json [] = Ok schema.
Proof.
  unfold get_bird_pg_schema_dict, mbind, io_bind, connect, lift, close,
    mret, io_ret. cbn zeta.
  destruct (pg_accepts srv (default "" pg_conn_str)); [|done].
  cbn [conn_cursor conn_server].
  destruct (get_tables srv) as [pg_tables|] eqn:Htables; [|done].
  apply get_tables_Ok in Htables as ->.
  destruct (for_db_infos _ _ _ _ _) as [schema0|]; [|done].
  intros [= <- <-]. eexists. by rewrite <- (assoc_L (++)).
Qed.

(** The record of a manifest entry that is the last one for its [db_id]. *)
Lemma run_last_entry (srv : pg_server) (dev_tables_json : list db_info)
    (pg_conn_str : option string) (tr tr' : list event)
    (schema : dict database_record) (entry : db_info) :
  get_bird_pg_schema_dict srv dev_tables_json pg_conn_str tr
    = (Ok schema, tr') →
  last_entry dev_tables_json (db_id entry) = Some entry →
  ∃ rec, dict_get schema (db_id entry) = Some rec
         ∧ db_name rec = db_id entry
         ∧ holds_tables_of srv (live_tables srv)
             (lower_map (live_tables srv)) (table_names_original entry) rec.
Proof.
  intros (dsn & _ & _ & _ & Hloop)%run_Ok Hlast.
  apply (for_db_infos_Ok _ _ _ _ _ _ (db_id entry)) in Hloop.
  by rewrite Hlast in Hloop.
Qed.

Lemma for_db_infos_app (cur : cursor) (pg_tables : list string)
    (pg_tables_lower : gmap string string) (l1 l2 : list db_info)
    (schema : dict database_record) :
  for_db_infos cur pg_tables pg_tables_lower (l1 ++ l2) schema
  = for_db_infos cur pg_tables pg_tables_lower l1 schema
      ≫= for_db_infos cur pg_tables pg_tables_lower l2.
Proof.
  revert schema. induction l1 as [|entry l1 IH]; intros schema; [done|].
  cbn [app for_db_infos].
  destruct (for_tables _ _ _ _ _ _) as [schema1|e]; [apply IH | done].
Qed.

(** *** Claims about the schema assembler *)

Lemma last_entry_absent (dev_tables_json : list db_info) (id : string) :
  (∀ entry, entry ∈ dev_tables_json → db_id entry ≠ id) →
  last_entry dev_tables_json id = None.
Proof.
  intros Hnone. unfold last_entry. apply last_None.
  induction dev_tables_json as [|entry rest IH]; [done|].
  rewrite filter_cons_False by (apply Hnone; left).
  apply IH. intros ? ?. apply Hnone. by right.
Qed.

(** C1: in a successful run, for every manifest entry and every table name
    of it, in the schema as it is when the entry's loop over its table
    names ends: if the name is among the live table names it is looked up
    as it is, and the record stored under it carries it as [name];
    otherwise, if its lower-casing is a key of the map from lower-cased to
    live names, the live name found there, which differs from the manifest
    name but has the same lower-casing, is the key and the [name] of the
    stored record.  When no later entry has the same [db_id], that record
    of the database is the one in the output. *)
Theorem manifest_table_resolved (srv : pg_server)
    (pre post : list db_info) (entry : db_info)
    (pg_conn_str : option string) (tr tr' : list event)
    (schema : dict database_record) (table : string) :
  get_bird_pg_schema_dict srv (pre ++ entry :: post) pg_conn_str tr
    = (Ok schema, tr') →
  table ∈ table_names_original entry →
  let pg_tables := live_tables srv in
  let pg_tables_lower := lower_map pg_tables in
  ∃ before after rec,
    for_db_infos srv pg_tables pg_tables_lower pre [] = Ok before
    ∧ for_tables srv pg_tables pg_tables_lower (db_id entry)
        (table_names_original entry)
        (dict_set before (db_id entry)
           {| db_name := db_id entry; db_tables := [] |})
      = Ok after
    ∧ for_db_infos srv pg_tables pg_tables_lower post after = Ok schema
    ∧ dict_get after (db_id entry) = Some rec
    ∧ (table ∈ pg_tables →
       resolve_table pg_tables pg_tables_lower table = Some table
       ∧ ∃ info, dict_get (db_tables rec) table = Some info
                 ∧ tbl_name info = table)
    ∧ (table ∉ pg_tables →
       ∀ resolved,
         pg_tables_lower !! lower table = Some resolved →
         resolved ∈ pg_tables
         ∧ lower resolved = lower table
         ∧ resolved ≠ table
         ∧ ∃ info, dict_get (db_tables rec) resolved = Some info
                   ∧ tbl_name info = resolved)
    ∧ ((∀ later, later ∈ post → db_id later ≠ db_id entry) →
       dict_get schema (db_id entry) = Some rec).
Proof.
  intros (dsn & _ & _ & _ & Hloop)%run_Ok Htable pg_tables pg_tables_lower.
  rewrite for_db_infos_app in Hloop.
  apply bind_Ok in Hloop as (before & Hbefore & Hloop).
  cbn [for_db_infos] in Hloop. cbn zeta in Hloop.
  apply bind_Ok in Hloop as (after & Hafter & Hpost).
  destruct (for_tables_Ok _ _ _ _ _ _ _ _ Hafter (dict_get_set_eq _ _ _))
    as (rec & Hrec & _ & Hyes & _).
  exists before, after, rec. do 4 (split; [done|]). split; [|split].
  - intros Hlive. split; [by apply resolve_table_exact|].
    destruct (Hyes table) as (info & [Hname _]%fill_table_info_Ok & Hget).
    { apply Exists_exists. exists table.
      by rewrite resolve_table_exact. }
    eauto.
  - intros Hlive resolved Hlookup.
    assert (resolved ∈ pg_tables ∧ lower resolved = lower table)
      as [Hin Hlower].
    { apply last_match_Some. by rewrite <- lower_map_lookup. }
    repeat split; [done | done | by intros -> |].
    destruct (Hyes resolved) as (info & [Hname _]%fill_table_info_Ok & Hget).
    { apply Exists_exists. exists table.
      by rewrite resolve_table_fallback. }
    eauto.
  - intros Hlater.
    apply (for_db_infos_Ok _ _ _ _ _ _ (db_id entry)) in Hpost.
    rewrite last_entry_absent in Hpost by done. congruence.
Qed.

(** C7, as the code has it: in a successful run every manifest entry has
    a database record under its [db_id]; a table name of the entry that is
    not a live table name is not a key of the record's [tables] (and the
    loop skips it when its lower-casing is not in the map either), while
    the record of the last entry of a [db_id] holds every table of that
    entry that did resolve. *)
Theorem unresolved_table_omitted (srv : pg_server)
    (dev_tables_json : list db_info) (pg_conn_str : option string)
    (tr tr' : list event) (schema : dict database_record) (entry : db_info) :
  get_bird_pg_schema_dict srv dev_tables_json pg_conn_str tr
    = (Ok schema, tr') →
  entry ∈ dev_tables_json →
  ∃ rec,
    dict_get schema (db_id entry) = Some rec
    ∧ db_name rec = db_id entry
    ∧ (∀ table,
         table ∈ table_names_original entry →
         table ∉ live_tables srv →
         lower_map (live_tables srv) !! lower table = None →
         resolve_table (live_tables srv) (lower_map (live_tables srv)) table
           = None
         ∧ dict_get (db_tables rec) table = None
         ∧ table ∉ dict_keys (db_tables rec))
    ∧ (last_entry dev_tables_json (db_id entry) = Some entry →
       ∀ table key,
         table ∈ table_names_original entry →
         resolve_table (live_tables srv) (lower_map (live_tables srv)) table
           = Some key →
         ∃ info, dict_get (db_tables rec) key = Some info
                 ∧ tbl_name info = key).
Proof.
  intros Hrun Hentry.
  destruct (last_entry_exists _ _ Hentry) as [entry' Hlast].
  destruct (last_entry_elem _ _ _ Hlast) as [_ Hid].
  rewrite <- Hid in Hlast.
  destruct (run_last_entry _ _ _ _ _ _ _ Hrun Hlast)
    as (rec & Hrec & Hname & Hyes & Hno).
  rewrite Hid in Hrec, Hname, Hlast.
  exists rec. split; [done|]. split; [done|]. split.
  - intros table _ Hlive Hlookup.
    assert (dict_get (db_tables rec) table = None) as Hnone.
    { apply Hno. by intros ?%resolves_to_live. }
    split; [by rewrite resolve_table_fallback | split; [done|]].
    by apply dict_get_None.
  - intros Hlast' table key Htable Hres.
    rewrite Hlast in Hlast'. injection Hlast' as ->.
    destruct (Hyes key) as (info & [Hinfo _]%fill_table_info_Ok & Hget).
    { apply Exists_exists. eauto. }
    eauto.
Qed.

(** C10: when a [db_id] occurs in two manifest entries and in no entry
    after the second, the second entry starts from a fresh record with an
    empty [tables] dict, and in a successful run the keys of the record's
    [tables] are exactly the live names the second entry's table names
    resolve to: a table only the first entry resolves to is not in the
    output. *)
Theorem repeated_db_id_keeps_last_entry (srv : pg_server)
    (pre mid post : list db_info) (first second : db_info)
    (pg_conn_str : option string) (tr tr' : list event)
    (schema : dict database_record) :
  get_bird_pg_schema_dict srv (pre ++ first :: mid ++ second :: post)
    pg_conn_str tr = (Ok schema, tr') →
  db_id first = db_id second →
  (∀ entry, entry ∈ post → db_id entry ≠ db_id second) →
  let pg_tables := live_tables srv in
  let pg_tables_lower := lower_map pg_tables in
  let fresh := {| db_name := db_id second; db_tables := [] |} in
  (∃ before,
     for_db_infos srv pg_tables pg_tables_lower (pre ++ first :: mid) []
       = Ok before
     ∧ dict_get (dict_set before (db_id second) fresh) (db_id second)
       = Some fresh
     ∧ for_tables srv pg_tables pg_tables_lower (db_id second)
         (table_names_original second)
         (dict_set before (db_id second) fresh)
         ≫= for_db_infos srv pg_tables pg_tables_lower post
       = Ok schema)
  ∧ ∃ rec,
      dict_get schema (db_id second) = Some rec
      ∧ db_name rec = db_id second
      ∧ (∀ key, key ∈ dict_keys (db_tables rec)
                ↔ resolves_to pg_tables pg_tables_lower
                    (table_names_original second) key)
      ∧ (∀ key,
           resolves_to pg_tables pg_tables_lower
             (table_names_original first) key →
           ¬ resolves_to pg_tables pg_tables_lower
               (table_names_original second) key →
           key ∉ dict_keys (db_tables rec)).
Proof.
  intros Hrun Hsame Hpost pg_tables pg_tables_lower fresh. split.
  - apply run_Ok in Hrun as (dsn & _ & _ & _ & Hloop).
    replace (pre ++ first :: mid ++ second :: post)
      with ((pre ++ first :: mid) ++ second :: post) in Hloop
      by (by rewrite <- app_assoc).
    rewrite for_db_infos_app in Hloop.
    apply bind_Ok in Hloop as (before & Hbefore & Hloop).
    exists before. split; [done|]. split; [apply dict_get_set_eq | done].
  - destruct (run_last_entry _ _ _ _ _ _ second Hrun)
      as (rec & Hrec & Hname & Hyes & Hno);
      [by apply last_entry_repeated|].
    exists rec. split; [done|]. split; [done|].
    assert (∀ key, key ∈ dict_keys (db_tables rec)
                   ↔ resolves_to pg_tables pg_tables_lower
                       (table_names_original second) key) as Hkeys.
    { intros key. split.
      - intros Hkey.
        destruct (decide (resolves_to pg_tables pg_tables_lower
                            (table_names_original second) key))
          as [|Hnot]; [done|].
        by apply Hno, dict_get_None in Hnot.
      - intros (info & _ & Hget)%Hyes.
        destruct (decide (key ∈ dict_keys (db_tables rec)))
          as [|Hkey%dict_get_None]; [done | congruence]. }
    split; [done|]. intros key _ Hnot Hkey%Hkeys. done.
Qed.

(** C6, as the code has it: the names [get_tables] returns are sorted, and
    the map from lower-cased to live names holds, for each lower-casing,
    the last live name in that order with this lower-casing; a manifest
    name that is not a live name resolves to that last name. *)
Theorem lower_map_keeps_last_name (srv : pg_server)
    (pg_tables : list string) (table : string) :
  get_tables srv = Ok pg_tables →
  table ∉ pg_tables →
  Sorted str_le pg_tables
  ∧ lower_map pg_tables !! lower table = last_match pg_tables (lower table)
  ∧ resolve_table pg_tables (lower_map pg_tables) table
    = last_match pg_tables (lower table).
Proof.
  intros ->%get_tables_Ok Hlive. split; [|split].
  - apply (Sorted_merge_sort str_le).
  - apply lower_map_lookup.
  - by rewrite resolve_table_fallback, lower_map_lookup.
Qed.

(** C9: the record [fill_table_info] returns carries the list
    [get_columns] returns unchanged, and that list has one descriptor per
    catalog row of the table, in ascending [ordinal_position]. *)
Theorem columns_in_ordinal_position_order (cur : cursor)
    (table_name : string) (info : table_record) :
  fill_table_info cur table_name = Ok info →
  get_columns cur table_name = Ok (tbl_columns info)
  ∧ col_name <$> tbl_columns info
    = c_column_name <$> columns_by_position cur table_name
  ∧ StronglySorted by_ordinal_position (columns_by_position cur table_name)
  ∧ columns_by_position cur table_name
    ≡ₚ filter (λ r, c_table_name r = table_name) (pg_columns_view cur).
Proof.
  intros [_ Hcols]%fill_table_info_Ok. split; [done|].
  apply get_columns_Ok in Hcols as ->. split; [|split].
  - by rewrite <- list_fmap_compose.
  - apply (StronglySorted_merge_sort by_ordinal_position).
  - apply merge_sort_Permutation.
Qed.

(** *** Connection life cycle *)

Lemma run_trace (srv : pg_server) (dev_tables_json : list db_info)
    (pg_conn_str : option string) (tr : list event) :
  match get_bird_pg_schema_dict srv dev_tables_json pg_conn_str tr with
  | (Ok _, tr') => ∃ dsn, tr' = tr ++ [Connected dsn; Closed]
  | (Raise _, tr') => tr' = tr ∨ ∃ dsn, tr' = tr ++ [Connected dsn]
  end.
Proof.
  unfold get_bird_pg_schema_dict, mbind, io_bind, connect, lift, close,
    mret, io_ret. cbn zeta.
  destruct (pg_accepts srv (default "" pg_conn_str)); [|by left].
  destruct (get_tables _); [|right; eauto].
  destruct (for_db_infos _ _ _ _ _); [|right; eauto].
  eexists. by rewrite <- (assoc_L (++)).
Qed.

(** C4, as the code has it: a run that returns has opened one connection
    and closed it once, as its last step; a run that raises has closed
    nothing, whether or not it had opened the connection. *)
Theorem connection_closed_on_return_only (srv : pg_server)
    (dev_tables_json : list db_info) (pg_conn_str : option string) :
  match get_bird_pg_schema_dict srv dev_tables_json pg_conn_str [] with
  | (Ok _, tr) => opens tr = 1%nat ∧ closes tr = 1%nat ∧ last tr = Some Closed
  | (Raise _, tr) => (opens tr ≤ 1)%nat ∧ closes tr = 0%nat
  end.
Proof.
  pose proof (run_trace srv dev_tables_json pg_conn_str []) as Htrace.
  destruct (get_bird_pg_schema_dict _ _ _ _) as [[schema|e] tr].
  - destruct Htrace as [dsn ->]. done.
  - destruct Htrace as [->|[dsn ->]]; cbn; split; (lia || done).
Qed.

(** C5, on the code: without the flag and with a non-empty environment
    variable, [pg_conn_str] is overwritten with the absent flag, so the
    schema assembler is called with [None] whatever the variable holds;
    without the flag and without the variable the run stops with
    [RuntimeError]; with the flag, [pg_conn_str] is never bound and the
    call raises [NameError]. *)
Theorem main_drops_connection_string (srv : pg_server)
    (dev_tables_json : list db_info) (tr : list event) :
  (∀ environ,
     main srv None environ dev_tables_json tr
     = if truthy environ
       then get_bird_pg_schema_dict srv dev_tables_json None tr
       else (Raise (RuntimeError "Missing POSTGRES_CONNECTION_STRING"), tr))
  ∧ (∀ flag environ,
       main srv (Some flag) environ dev_tables_json tr
       = (Raise (NameError "pg_conn_str"), tr)).
Proof.
  split; [|done]. intros environ. unfold main, mbind, io_bind at 1.
  by destruct (truthy environ).
Qed.

(** *** Catalog statements *)

Lemma select_foreign_keys_elem (srv : pg_server) (table : string)
    (column_name ft fc : string) :
  (column_name, ft, fc) ∈ select_foreign_keys srv table
  ↔ ∃ tc kcu ccu,
      tc ∈ pg_table_constraints srv
      ∧ kcu ∈ pg_key_column_usage srv
      ∧ ccu ∈ pg_constraint_column_usage srv
      ∧ tc_constraint_type tc = "FOREIGN KEY"
      ∧ tc_constraint_name tc = kcu_constraint_name kcu
      ∧ kcu_table_name kcu = table
      ∧ ccu_constraint_name ccu = tc_constraint_name tc
      ∧ kcu_column_name kcu = column_name
      ∧ ccu_table_name ccu = ft
      ∧ ccu_column_name ccu = fc.
Proof.
  unfold select_foreign_keys. rewrite list_elem_of_bind. split.
  - intros (tc & (kcu & (ccu & Hrow%list_elem_of_singleton & Hccu)
                    %list_elem_of_bind & Hkcu)%list_elem_of_bind & Htc).
    apply list_elem_of_filter in Hccu as [? ?].
    apply list_elem_of_filter in Hkcu as [[? ?] ?].
    apply list_elem_of_filter in Htc as [? ?].
    injection Hrow as -> -> ->. by exists tc, kcu, ccu.
  - intros (tc & kcu & ccu & ? & ? & ? & ? & ? & ? & ? & <- & <- & <-).
    exists tc. split; [|by apply list_elem_of_filter].
    apply list_elem_of_bind. exists kcu.
    split; [|by apply list_elem_of_filter].
    apply list_elem_of_bind. exists ccu.
    split; [by apply list_elem_of_singleton | by apply list_elem_of_filter].
Qed.

(** X1: the list [get_tables] returns is sorted, is a rearrangement of the
    names the statement returns, and holds a name exactly when the catalog
    lists a table of that name in the schema [public]. *)
Theorem get_tables_sorted_public (cur : cursor) (pg_tables : list string) :
  get_tables cur = Ok pg_tables →
  Sorted str_le pg_tables
  ∧ pg_tables ≡ₚ run_query cur SelectTables
  ∧ ∀ t, t ∈ pg_tables
         ↔ ∃ r, r ∈ pg_tables_view cur
                ∧ t_table_schema r = "public"
                ∧ t_table_name r = t.
Proof.
  intros ->%get_tables_Ok. unfold live_tables, sorted. split; [|split].
  - apply (Sorted_merge_sort str_le).
  - apply merge_sort_Permutation.
  - intros t. rewrite merge_sort_Permutation. unfold select_tables.
    rewrite list_elem_of_fmap. split.
    + intros (r & -> & [? ?]%list_elem_of_filter). eauto.
    + intros (r & ? & ? & <-). exists r.
      split; [done | by apply list_elem_of_filter].
Qed.

(** X2: the set [get_primary_keys] returns holds a column exactly when the
    catalog has a PRIMARY KEY constraint on a table of that name and a key
    column of that column name under the same constraint name. *)
Theorem primary_keys_from_catalog (cur : cursor) (table : string)
    (primary_keys : gset string) (column_name : string) :
  get_primary_keys cur table = Ok primary_keys →
  column_name ∈ primary_keys
  ↔ ∃ tc kcu,
      tc ∈ pg_table_constraints cur
      ∧ kcu ∈ pg_key_column_usage cur
      ∧ tc_table_name tc = table
      ∧ tc_constraint_type tc = "PRIMARY KEY"
      ∧ tc_constraint_name tc = kcu_constraint_name kcu
      ∧ kcu_column_name kcu = column_name.
Proof.
  unfold get_primary_keys. intros Hrun. inv_run. cbn [run_query].
  rewrite elem_of_list_to_set. apply select_primary_keys_elem.
Qed.

(** X3: a descriptor lists a reference to [ft.fc] exactly when the catalog
    has a FOREIGN KEY constraint with, under its name, a key column of the
    table with the descriptor's column name and a referenced column [fc]
    of table [ft]: every key column of a constraint name is paired with
    every referenced column of that name. *)
Theorem foreign_keys_from_catalog (cur : cursor) (table : string)
    (columns : list column_descriptor) (d : column_descriptor)
    (ref : foreign_key_ref) :
  get_columns cur table = Ok columns →
  d ∈ columns →
  ref ∈ col_foreign_keys d
  ↔ ∃ tc kcu ccu,
      tc ∈ pg_table_constraints cur
      ∧ kcu ∈ pg_key_column_usage cur
      ∧ ccu ∈ pg_constraint_column_usage cur
      ∧ tc_constraint_type tc = "FOREIGN KEY"
      ∧ tc_constraint_name tc = kcu_constraint_name kcu
      ∧ kcu_table_name kcu = table
      ∧ ccu_constraint_name ccu = tc_constraint_name tc
      ∧ kcu_column_name kcu = col_name d
      ∧ ccu_table_name ccu = target_table ref
      ∧ ccu_column_name ccu = target_column ref.
Proof.
  intros Hcols Hd.
  destruct (descriptor_of_columns _ _ _ _ Hcols Hd) as (r & _ & ->).
  cbn [descriptor_of describe_column col_foreign_keys col_name].
  rewrite collect_foreign_keys_lookup, lookup_empty. cbn [default app].
  rewrite refs_of_elem. apply select_foreign_keys_elem.
Qed.

Lemma collect_foreign_keys_entry (rows : list (string * string * string))
    (fk_map : gmap string (list foreign_key_ref)) (column_name : string) :
  collect_foreign_keys rows fk_map !! column_name
  = match refs_of column_name rows with
    | [] => fk_map !! column_name
    | refs => Some (default [] (fk_map !! column_name) ++ refs)
    end.
Proof.
  revert fk_map. induction rows as [|[[col ft] fc] rows IH]; intros fk_map;
    [done|].
  unfold collect_foreign_keys in *. cbn [foldl]. rewrite IH.
  unfold setdefault_append, refs_of. cbn [omap list_omap].
  destruct (decide (col = column_name)) as [->|Hne].
  - rewrite lookup_insert_eq. cbn [default id].
    destruct (omap _ rows); [done|]. by rewrite <- app_assoc.
  - by rewrite lookup_insert_ne.
Qed.

(** X4: the dict [get_foreign_keys_by_column] returns has a key exactly
    for the columns that are the source of some row; the list under a key
    is never empty and holds the references of that column's rows in row
    order. *)
Theorem foreign_key_map_entries (cur : cursor) (table : string)
    (fk_map : gmap string (list foreign_key_ref)) (column_name : string) :
  get_foreign_keys_by_column cur table = Ok fk_map →
  match fk_map !! column_name with
  | Some refs =>
      refs ≠ []
      ∧ refs = refs_of column_name (run_query cur (SelectForeignKeys table))
  | None =>
      ∀ ft fc,
        (column_name, ft, fc) ∉ run_query cur (SelectForeignKeys table)
  end.
Proof.
  unfold get_foreign_keys_by_column. intros Hrun. inv_run.
  cbn [run_query]. rewrite collect_foreign_keys_entry, lookup_empty.
  destruct (refs_of _ _) as [|ref refs] eqn:Hrefs.
  - intros ft fc Hrow.
    apply (refs_of_elem _ _ {| target_table := ft; target_column := fc |})
      in Hrow.
    rewrite Hrefs in Hrow. by apply elem_of_nil in Hrow.
  - done.
Qed.

(** *** Errors and shape of the column metadata *)

#[local] Instance statements_succeed_dec (srv : pg_server) (table : string) :
  Decision (statements_succeed srv table).
Proof. unfold statements_succeed. apply _. Defined.

Lemma sample_columns_eval (cur : cursor) (table : string)
    (primary_keys : gset string)
    (foreign_keys_map : gmap string (list foreign_key_ref))
    (rows : list (string * string)) (columns0 : list column_descriptor) :
  sample_columns cur table primary_keys foreign_keys_map rows columns0
  = if decide (Forall (λ row, pg_fails cur (SelectSample table row.1) = false)
                 rows)
    then Ok (columns0 ++
               ((λ '(column_name, data_type),
                   describe_column primary_keys foreign_keys_map
                     column_name data_type
                     (str <$> select_sample cur table column_name)) <$> rows))
    else Raise DatabaseError.
Proof.
  revert columns0.
  induction rows as [|[column_name data_type] rows IH]; intros columns0.
  - rewrite decide_True by done. cbn. by rewrite app_nil_r.
  - cbn [sample_columns]. unfold execute.
    destruct (pg_fails cur (SelectSample table column_name)) eqn:Hfails.
    + rewrite decide_False; [done|].
      intros [Hhead _]%Forall_cons. cbn in Hhead. congruence.
    + cbn. rewrite IH. destruct (decide (Forall _ rows)) as [Hrest|Hrest].
      * rewrite decide_True by (by apply Forall_cons).
        by rewrite <- app_assoc.
      * rewrite decide_False; [done|]. by intros [_ ?]%Forall_cons.
Qed.

Lemma get_columns_eval (cur : cursor) (table : string) :
  get_columns cur table
  = if decide (statements_succeed cur table)
    then Ok (descriptor_of cur table <$> columns_by_position cur table)
    else Raise DatabaseError.
Proof.
  unfold get_columns, get_primary_keys, get_foreign_keys_by_column, execute.
  destruct (decide (statements_succeed cur table))
    as [(Hpk & Hfk & Hcols & Hrows)|Hnot].
  - rewrite Hpk, Hfk, Hcols. cbn.
    rewrite sample_columns_eval. unfold select_columns.
    rewrite decide_True by (by apply Forall_fmap).
    cbn [app]. by rewrite <- list_fmap_compose.
  - destruct (pg_fails cur (SelectPrimaryKeys table)) eqn:Hpk; [done|].
    destruct (pg_fails cur (SelectForeignKeys table)) eqn:Hfk; [done|].
    destruct (pg_fails cur (SelectColumns table)) eqn:Hcols; [done|].
    cbn. rewrite sample_columns_eval, decide_False; [done|].
    intros Hrows. apply Hnot. repeat split; try done.
    unfold select_columns in Hrows. by apply Forall_fmap in Hrows.
Qed.

(** X5: [get_columns] returns exactly when none of its statements fails:
    the primary-key, foreign-key and column statements and the sampling
    statement of every column of the table.  It then returns one
    descriptor per catalog row; otherwise it raises the database error. *)
Theorem get_columns_succeeds_iff_statements (cur : cursor) (table : string) :
  get_columns cur table
  = if decide (statements_succeed cur table)
    then Ok (descriptor_of cur table <$> columns_by_position cur table)
    else Raise DatabaseError.
Proof. apply get_columns_eval. Qed.

(** X6: the list [get_columns] returns has one descriptor per catalog row
    of the table, so it is empty for a table without columns; the types
    are the upper-cased data types in column order and every description
    is empty. *)
Theorem get_columns_shape (cur : cursor) (table : string)
    (columns : list column_descriptor) :
  get_columns cur table = Ok columns →
  length columns
    = length (filter (λ r, c_table_name r = table) (pg_columns_view cur))
  ∧ col_type <$> columns
    = (λ r, upper (c_data_type r)) <$> columns_by_position cur table
  ∧ Forall (λ d, col_description d = "") columns
  ∧ (filter (λ r, c_table_name r = table) (pg_columns_view cur) = [] →
     columns = []).
Proof.
  intros ->%get_columns_Ok.
  assert (length (descriptor_of cur table <$> columns_by_position cur table)
          = length (filter (λ r, c_table_name r = table)
                      (pg_columns_view cur))) as Hlen.
  { rewrite length_fmap. unfold columns_by_position,
      order_by_ordinal_position. by rewrite merge_sort_Permutation. }
  split; [done|]. split; [by rewrite <- list_fmap_compose|]. split.
  - apply Forall_fmap, Forall_forall. done.
  - intros Hnone. rewrite Hnone in Hlen. by apply nil_length_inv.
Qed.

(** X7: for a table and a column whose names hold no double quote, the
    samples of the column are the renderings of its first five non-null
    stored values in scan order; their number is five or, when fewer are
    stored, the number of non-null values. *)
Theorem value_samples_count (cur : cursor) (table : string)
    (columns : list column_descriptor) (d : column_descriptor) :
  get_columns cur table = Ok columns →
  d ∈ columns →
  has_dquote table = false →
  has_dquote (col_name d) = false →
  col_value_samples d
    = str <$> take 5 (filter is_Some (pg_stored cur table (col_name d)))
  ∧ length (col_value_samples d)
    = (5 `min` length (filter is_Some (pg_stored cur table (col_name d))))%nat.
Proof.
  intros Hcols Hd Htable Hcolumn.
  destruct (descriptor_of_columns _ _ _ _ Hcols Hd) as (r & _ & ->).
  cbn [descriptor_of describe_column col_value_samples col_name] in *.
  rewrite select_sample_plain by done. split; [done|].
  by rewrite length_fmap, length_take.
Qed.

(** *** Table-name resolution over the live names *)

Lemma last_match_None (pg_tables : list string) (table_lower : string) :
  last_match pg_tables table_lower = None
  ↔ ∀ t, t ∈ pg_tables → lower t ≠ table_lower.
Proof.
  unfold last_match. rewrite last_None. split.
  - intros Hnil t Hin Hlower. by eapply (filter_nil_not_elem_of _ _ t).
  - intros Hnone. induction pg_tables as [|t pg_tables IH]; [done|].
    rewrite filter_cons_False by (apply Hnone; left).
    apply IH. intros t' ?. apply Hnone. by right.
Qed.

Lemma resolve_table_None (pg_tables : list string) (table : string) :
  resolve_table pg_tables (lower_map pg_tables) table = None
  ↔ (table ∉ pg_tables) ∧ ∀ t, t ∈ pg_tables → lower t ≠ lower table.
Proof.
  destruct (decide (table ∈ pg_tables)) as [Hin|Hin].
  - rewrite resolve_table_exact by done. split; [done | by intros [? _]].
  - rewrite resolve_table_fallback, lower_map_lookup, last_match_None by done.
    split; [done | by intros [_ ?]].
Qed.

Lemma resolve_table_Some (pg_tables : list string) (table key : string) :
  resolve_table pg_tables (lower_map pg_tables) table = Some key →
  key ∈ pg_tables
  ∧ lower key = lower table
  ∧ resolve_table pg_tables (lower_map pg_tables) key = Some key.
Proof.
  intros Hres.
  assert (key ∈ pg_tables) as Hkey by (by eapply resolve_table_live).
  split; [done|]. split; [|by apply resolve_table_exact].
  destruct (decide (table ∈ pg_tables)) as [Hin|Hin].
  - rewrite resolve_table_exact in Hres by done. by injection Hres as ->.
  - rewrite resolve_table_fallback, lower_map_lookup in Hres by done.
    by apply last_match_Some in Hres as [_ ?].
Qed.

(** X8: a manifest name is skipped exactly when it is not a live name and
    no live name has its lower-casing. *)
Theorem resolve_table_skips_iff_no_match (pg_tables : list string)
    (table : string) :
  resolve_table pg_tables (lower_map pg_tables) table = None
  ↔ (table ∉ pg_tables) ∧ ∀ t, t ∈ pg_tables → lower t ≠ lower table.
Proof. apply resolve_table_None. Qed.

(** X9: the name a manifest name is looked up under is a live name with
    the same lower-casing, and is looked up under itself: resolving twice
    changes nothing. *)
Theorem resolve_table_idempotent (pg_tables : list string)
    (table key : string) :
  resolve_table pg_tables (lower_map pg_tables) table = Some key →
  key ∈ pg_tables
  ∧ lower key = lower table
  ∧ resolve_table pg_tables (lower_map pg_tables) key = Some key.
Proof. apply resolve_table_Some. Qed.

(** X10: when no two live names have the same lower-casing, a manifest
    name is looked up under the live name that has its lower-casing,
    whichever spelling the manifest uses. *)
Theorem resolve_table_unique_match (pg_tables : list string)
    (table live : string) :
  (∀ t1 t2, t1 ∈ pg_tables → t2 ∈ pg_tables →
            lower t1 = lower t2 → t1 = t2) →
  live ∈ pg_tables →
  lower live = lower table →
  resolve_table pg_tables (lower_map pg_tables) table = Some live.
Proof.
  intros Hinj Hlive Hlower.
  destruct (resolve_table pg_tables (lower_map pg_tables) table)
    as [key|] eqn:Hres.
  - apply resolve_table_Some in Hres as (Hkey & Hkeylower & _).
    f_equal. apply Hinj; [done | done | congruence].
  - apply resolve_table_None in Hres as [_ Hnone].
    by apply Hnone in Hlive.
Qed.

(** *** When the run returns and what it raises *)

#[local] Instance tables_succeed_dec (srv : pg_server)
    (pg_tables : list string) (pg_tables_lower : gmap string string)
    (names : list string) :
  Decision (tables_succeed srv pg_tables pg_tables_lower names).
Proof.
  unfold tables_succeed. apply Forall_dec. intros table.
  destruct (resolve_table pg_tables pg_tables_lower table); apply _.
Defined.

#[local] Instance manifest_succeeds_dec (srv : pg_server)
    (pg_tables : list string) (pg_tables_lower : gmap string string)
    (dev_tables_json : list db_info) :
  Decision (manifest_succeeds srv pg_tables pg_tables_lower dev_tables_json).
Proof. unfold manifest_succeeds. apply _. Defined.

Lemma fill_table_info_eval (cur : cursor) (table_name : string) :
  fill_table_info cur table_name
  = if decide (statements_succeed cur table_name)
    then Ok {| tbl_name := table_name;
               tbl_columns := descriptor_of cur table_name
                                <$> columns_by_position cur table_name;
               tbl_description := "";
               tbl_table_str := "" |}
    else Raise DatabaseError.
Proof.
  unfold fill_table_info. rewrite get_columns_eval.
  by destruct (decide (statements_succeed cur table_name)).
Qed.

Lemma for_tables_cases (cur : cursor) (pg_tables : list string)
    (pg_tables_lower : gmap string string) (id : string)
    (names : list string) (schema : dict database_record) :
  is_Some (dict_get schema id) →
  if decide (tables_succeed cur pg_tables pg_tables_lower names)
  then ∃ schema',
         for_tables cur pg_tables pg_tables_lower id names schema = Ok schema'
  else for_tables cur pg_tables pg_tables_lower id names schema
       = Raise DatabaseError.
Proof.
  revert schema. unfold tables_succeed.
  induction names as [|table names IH]; intros schema Hid.
  - rewrite decide_True by done. by exists schema.
  - cbn [for_tables].
    destruct (resolve_table pg_tables pg_tables_lower table)
      as [key|] eqn:Hres.
    + rewrite fill_table_info_eval.
      destruct (decide (statements_succeed cur key)) as [Hkey|Hkey].
      * cbn. unfold store_table. destruct Hid as [rec Hrec].
        rewrite Hrec. cbn.
        match goal with
        | |- context [for_tables _ _ _ _ _ ?s] => specialize (IH s)
        end.
        rewrite dict_get_set_eq in IH. specialize (IH ltac:(done)).
        destruct (decide (Forall _ names)) as [Hrest|Hrest].
        -- rewrite decide_True; [done|].
           apply Forall_cons. by rewrite Hres.
        -- rewrite decide_False; [done|]. by intros [_ ?]%Forall_cons.
      * rewrite decide_False; [done|].
        intros [Hhead _]%Forall_cons. by rewrite Hres in Hhead.
    + specialize (IH schema Hid).
      destruct (decide (Forall _ names)) as [Hrest|Hrest].
      * rewrite decide_True; [done|]. apply Forall_cons. by rewrite Hres.
      * rewrite decide_False; [done|]. by intros [_ ?]%Forall_cons.
Qed.

Lemma for_db_infos_cases (cur : cursor) (pg_tables : list string)
    (pg_tables_lower : gmap string string) (dev_tables_json : list db_info)
    (schema : dict database_record) :
  if decide (manifest_succeeds cur pg_tables pg_tables_lower dev_tables_json)
  then ∃ schema',
         for_db_infos cur pg_tables pg_tables_lower dev_tables_json schema
         = Ok schema'
  else for_db_infos cur pg_tables pg_tables_lower dev_tables_json schema
       = Raise DatabaseError.
Proof.
  revert schema. unfold manifest_succeeds.
  induction dev_tables_json as [|entry rest IH]; intros schema.
  - rewrite decide_True by done. by exists schema.
  - cbn [for_db_infos].
    match goal with
    | |- context [for_tables _ _ _ ?id ?names ?s] =>
        pose proof (for_tables_cases cur pg_tables pg_tables_lower
                      id names s) as Hentry
    end.
    rewrite dict_get_set_eq in Hentry. specialize (Hentry ltac:(done)).
    destruct (decide (tables_succeed _ _ _ (table_names_original entry)))
      as [Hhead|Hhead].
    + destruct Hentry as [schema1 ->]. cbn. specialize (IH schema1).
      destruct (decide (Forall _ rest)) as [Hrest|Hrest].
      * rewrite decide_True; [done | by apply Forall_cons].
      * rewrite decide_False; [done|]. by intros [_ ?]%Forall_cons.
    + rewrite Hentry. rewrite decide_False; [done|].
      by intros [? _]%Forall_cons.
Qed.

(** The run, case by case. *)
Lemma run_cases (srv : pg_server) (dev_tables_json : list db_info)
    (pg_conn_str : option string) (tr : list event) :
  let run := get_bird_pg_schema_dict srv dev_tables_json pg_conn_str tr in
  let dsn := default "" pg_conn_str in
  if pg_accepts srv dsn then
    if pg_fails srv SelectTables
    then run = (Raise DatabaseError, tr ++ [Connected dsn])
    else if decide (manifest_succeeds srv (live_tables srv)
                      (lower_map (live_tables srv)) dev_tables_json)
    then ∃ schema, run = (Ok schema, tr ++ [Connected dsn; Closed])
    else run = (Raise DatabaseError, tr ++ [Connected dsn])
  else run = (Raise OperationalError, tr).
Proof.
  unfold get_bird_pg_schema_dict, mbind, io_bind, connect, lift, close,
    mret, io_ret. cbn zeta.
  destruct (pg_accepts srv (default "" pg_conn_str)); [|done].
  cbn [conn_cursor conn_server].
  unfold get_tables, execute.
  destruct (pg_fails srv SelectTables); [done|]. cbn.
  pose proof (for_db_infos_cases srv (live_tables srv)
                (lower_map (live_tables srv)) dev_tables_json []) as Hloop.
  destruct (decide (manifest_succeeds _ _ _ _)).
  - destruct Hloop as [schema Hloop]. exists schema.
    unfold live_tables, lower_map in Hloop. rewrite Hloop.
    by rewrite <- (assoc_L (++)).
  - unfold live_tables, lower_map in Hloop. by rewrite Hloop.
Qed.

(** X11: the run returns a schema exactly when the connection is accepted
    (for the given connection string, or for the empty one when none is
    given), the table listing does not fail, and no statement fails for
    any live table a manifest name is looked up under; names that are
    skipped execute nothing. *)
Theorem run_returns_iff (srv : pg_server) (dev_tables_json : list db_info)
    (pg_conn_str : option string) (tr : list event) :
  (∃ schema tr',
     get_bird_pg_schema_dict srv dev_tables_json pg_conn_str tr
     = (Ok schema, tr'))
  ↔ pg_accepts srv (default "" pg_conn_str) = true
    ∧ pg_fails srv SelectTables = false
    ∧ manifest_succeeds srv (live_tables srv)
        (lower_map (live_tables srv)) dev_tables_json.
Proof.
  pose proof (run_cases srv dev_tables_json pg_conn_str tr) as Hrun.
  cbn zeta in Hrun. split.
  - intros (schema & tr' & Heq). rewrite Heq in Hrun.
    destruct (pg_accepts srv _); [|done].
    destruct (pg_fails srv SelectTables); [done|].
    by destruct (decide (manifest_succeeds _ _ _ _)).
  - intros (Haccepts & Htables & Hmanifest).
    rewrite Haccepts, Htables, decide_True in Hrun by done.
    destruct Hrun as [schema ->]. eauto.
Qed.


(** X13: in the schema a run returns, every database record sits under
    its own [name], which is a [db_id] of the manifest, and every table
    record sits under its own [name], which is a live table name; the
    record is what [fill_table_info] returns for that name, with empty
    [description] and [table_str]. *)
Theorem output_records_consistent (srv : pg_server)
    (dev_tables_json : list db_info) (pg_conn_str : option string)
    (tr tr' : list event) (schema : dict database_record)
    (id : string) (rec : database_record) :
  get_bird_pg_schema_dict srv dev_tables_json pg_conn_str tr
    = (Ok schema, tr') →
  dict_get schema id = Some rec →
  db_name rec = id
  ∧ (∃ entry, entry ∈ dev_tables_json ∧ db_id entry = id)
  ∧ ∀ key info,
      dict_get (db_tables rec) key = Some info →
      key ∈ live_tables srv
      ∧ fill_table_info srv key = Ok info
      ∧ tbl_name info = key
      ∧ tbl_description info = ""
      ∧ tbl_table_str info = "".
Proof.
  intros (dsn & _ & _ & _ & Hloop)%run_Ok Hrec.
  apply (for_db_infos_Ok _ _ _ _ _ _ id) in Hloop.
  destruct (last_entry dev_tables_json id) as [entry|] eqn:Hlast;
    [|by rewrite Hrec in Hloop].
  destruct Hloop as (rec' & Hrec' & Hname & Hyes & Hno).
  rewrite Hrec in Hrec'. injection Hrec' as <-.
  split; [done|]. split; [by eauto using last_entry_elem|].
  intros key info Hget.
  destruct (decide (resolves_to (live_tables srv)
                      (lower_map (live_tables srv))
                      (table_names_original entry) key)) as [Hkey|Hkey];
    [|by rewrite (Hno _ Hkey) in Hget].
  destruct (Hyes _ Hkey) as (info' & Hfill & Hget').
  rewrite Hget in Hget'. injection Hget' as <-.
  split; [by eapply resolves_to_live|]. split; [done|].
  unfold fill_table_info in Hfill. inv_run. done.
Qed.

(** *** Order of the keys in the output *)

Local Abbreviation keys_step :=
  (λ (acc : list string) (k : string),
     if bool_decide (k ∈ acc) then acc else acc ++ [k]).

Lemma first_occurrences_fold (acc keys : list string) :
  foldl keys_step acc keys
  = acc ++ filter (λ k, k ∉ acc) (first_occurrences keys).
Proof.
  revert acc. induction keys as [|k keys IH]; intros acc.
  - by rewrite app_nil_r.
  - cbn [foldl first_occurrences]. rewrite IH. case_bool_decide as Hin.
    + rewrite filter_cons_False by (by intros ?).
      rewrite list_filter_filter. f_equal. apply list_filter_iff.
      intros k'. split; [|by intros [? _]].
      intros Hk'. split; [done | by intros ->].
    + rewrite filter_cons_True by done. rewrite <- app_assoc. cbn [app].
      do 2 f_equal. rewrite list_filter_filter. apply list_filter_iff.
      intros k'. rewrite not_elem_of_app, not_elem_of_cons.
      split; [intros [? [? _]]; done | intros [? ?]].
      split; [done | split; [done | by intros ?%elem_of_nil]].
Qed.

Lemma first_occurrences_from_empty (keys : list string) :
  foldl keys_step [] keys = first_occurrences keys.
Proof.
  rewrite first_occurrences_fold. cbn [app].
  induction (first_occurrences keys) as [|k l IH]; [done|].
  rewrite filter_cons_True by (by intros ?%elem_of_nil). by rewrite IH.
Qed.

Lemma first_occurrences_elem (keys : list string) (k : string) :
  k ∈ first_occurrences keys ↔ k ∈ keys.
Proof.
  induction keys as [|k0 keys IH]; [done|]. cbn [first_occurrences].
  rewrite !elem_of_cons, list_elem_of_filter, IH.
  destruct (decide (k = k0)); tauto.
Qed.

Lemma first_occurrences_NoDup (keys : list string) :
  NoDup (first_occurrences keys).
Proof.
  induction keys as [|k keys IH]; [constructor|]. cbn [first_occurrences].
  constructor; [|by apply NoDup_filter].
  by intros [? _]%list_elem_of_filter.
Qed.

Lemma dict_keys_elem {V} (d : dict V) (k : string) :
  is_Some (dict_get d k) → k ∈ dict_keys d.
Proof.
  intros Hsome. destruct (decide (k ∈ dict_keys d)) as [|Hnot]; [done|].
  apply dict_get_None in Hnot. rewrite Hnot in Hsome. by destruct Hsome.
Qed.

Lemma for_tables_keys (cur : cursor) (pg_tables : list string)
    (pg_tables_lower : gmap string string) (id : string)
    (names : list string) (schema schema' : dict database_record)
    (rec : database_record) :
  for_tables cur pg_tables pg_tables_lower id names schema = Ok schema' →
  dict_get schema id = Some rec →
  dict_keys schema' = dict_keys schema
  ∧ ∃ rec',
      dict_get schema' id = Some rec'
      ∧ dict_keys (db_tables rec')
        = foldl keys_step (dict_keys (db_tables rec))
            (resolved_names pg_tables pg_tables_lower names).
Proof.
  revert schema rec. unfold resolved_names.
  induction names as [|table names IH]; intros schema rec Hrun Hrec.
  - cbn in Hrun. inv_run. eauto.
  - cbn [for_tables omap list_omap] in *.
    destruct (resolve_table pg_tables pg_tables_lower table) as [key|].
    + inv_run.
      match goal with
      | Hstore : store_table _ _ _ _ = Ok _ |- _ =>
          unfold store_table in Hstore; rewrite Hrec in Hstore;
          injection Hstore as <-
      end.
      destruct (IH _ _ Hrun (dict_get_set_eq _ _ _))
        as (Hkeys & rec' & Hrec' & Htables).
      split.
      * rewrite Hkeys, dict_keys_set, bool_decide_eq_true_2; [done|].
        by apply dict_keys_elem.
      * exists rec'. split; [done|]. rewrite Htables. cbn [db_tables foldl].
        by rewrite dict_keys_set.
    + by apply (IH _ _ Hrun).
Qed.

Lemma for_db_infos_keys (cur : cursor) (pg_tables : list string)
    (pg_tables_lower : gmap string string) (dev_tables_json : list db_info)
    (schema schema' : dict database_record) :
  for_db_infos cur pg_tables pg_tables_lower dev_tables_json schema
    = Ok schema' →
  dict_keys schema'
  = foldl keys_step (dict_keys schema) (db_id <$> dev_tables_json).
Proof.
  revert schema.
  induction dev_tables_json as [|entry rest IH]; intros schema Hrun.
  - cbn in Hrun. by inv_run.
  - cbn [for_db_infos] in Hrun. inv_run.
    match goal with
    | Htables : for_tables _ _ _ _ _ _ = Ok _ |- _ =>
        destruct (for_tables_keys _ _ _ _ _ _ _ _ Htables
                    (dict_get_set_eq _ _ _)) as [Hkeys _]
    end.
    rewrite (IH _ Hrun), Hkeys, dict_keys_set. done.
Qed.

Lemma for_db_infos_last (cur : cursor) (pg_tables : list string)
    (pg_tables_lower : gmap string string) (dev_tables_json : list db_info)
    (schema schema' : dict database_record) (id : string) :
  for_db_infos cur pg_tables pg_tables_lower dev_tables_json schema
    = Ok schema' →
  match last_entry dev_tables_json id with
  | Some entry =>
      ∃ before after,
        for_tables cur pg_tables pg_tables_lower id
          (table_names_original entry)
          (dict_set before id {| db_name := id; db_tables := [] |})
        = Ok after
        ∧ dict_get schema' id = dict_get after id
  | None => dict_get schema' id = dict_get schema id
  end.
Proof.
  revert schema.
  induction dev_tables_json as [|entry rest IH]; intros schema Hrun.
  - cbn in Hrun. by inv_run.
  - cbn [for_db_infos] in Hrun. inv_run.
    match goal with
    | Htables : for_tables _ _ _ _ _ _ = Ok ?s |- _ =>
        rename Htables into Hentry; rename s into schema1
    end.
    specialize (IH _ Hrun). unfold last_entry in *. rewrite filter_cons.
    destruct (decide (db_id entry = id)) as [<-|Hid].
    + rewrite last_cons. destruct (last (filter _ rest)); [done|].
      exists schema, schema1. by rewrite IH.
    + destruct (last (filter _ rest)); [done|].
      destruct (for_tables_Ok _ _ _ _ _ _ _ _ Hentry (dict_get_set_eq _ _ _))
        as (_ & _ & _ & _ & _ & Hother).
      rewrite IH, Hother by done. by apply dict_get_set_ne.
Qed.

(** X14: the keys of the schema a run returns are the [db_id]s of the
    manifest, each once, in the order of their first occurrence. *)
Theorem schema_keys_in_manifest_order (srv : pg_server)
    (dev_tables_json : list db_info) (pg_conn_str : option string)
    (tr tr' : list event) (schema : dict database_record) :
  get_bird_pg_schema_dict srv dev_tables_json pg_conn_str tr
    = (Ok schema, tr') →
  dict_keys schema = first_occurrences (db_id <$> dev_tables_json)
  ∧ NoDup (dict_keys schema)
  ∧ ∀ id, id ∈ dict_keys schema
          ↔ ∃ entry, entry ∈ dev_tables_json ∧ db_id entry = id.
Proof.
  intros (dsn & _ & _ & _ & Hloop)%run_Ok.
  apply for_db_infos_keys in Hloop. cbn [dict_keys fmap list_fmap] in Hloop.
  rewrite first_occurrences_from_empty in Hloop.
  split; [done|]. rewrite Hloop. split; [apply first_occurrences_NoDup|].
  intros id. rewrite first_occurrences_elem, list_elem_of_fmap.
  split; intros (entry & ? & ?); eauto.
Qed.

(** X15: for the last manifest entry of a [db_id], the keys of [tables]
    are the live names the entry's table names are looked up under, each
    once, in the order of first occurrence in the entry; when none of
    its names resolves, the record has an empty [tables] dict. *)
Theorem tables_keys_in_entry_order (srv : pg_server)
    (dev_tables_json : list db_info) (pg_conn_str : option string)
    (tr tr' : list event) (schema : dict database_record)
    (entry : db_info) :
  get_bird_pg_schema_dict srv dev_tables_json pg_conn_str tr
    = (Ok schema, tr') →
  last_entry dev_tables_json (db_id entry) = Some entry →
  ∃ rec,
    dict_get schema (db_id entry) = Some rec
    ∧ dict_keys (db_tables rec)
      = first_occurrences
          (resolved_names (live_tables srv) (lower_map (live_tables srv))
             (table_names_original entry))
    ∧ (resolved_names (live_tables srv) (lower_map (live_tables srv))
         (table_names_original entry) = [] →
       db_tables rec = []).
Proof.
  intros (dsn & _ & _ & _ & Hloop)%run_Ok Hlast.
  apply (for_db_infos_last _ _ _ _ _ _ (db_id entry)) in Hloop.
  rewrite Hlast in Hloop. destruct Hloop as (before & after & Hentry & Hget).
  destruct (for_tables_keys _ _ _ _ _ _ _ _ Hentry (dict_get_set_eq _ _ _))
    as (_ & rec & Hrec & Hkeys).
  cbn [db_tables dict_keys fmap list_fmap] in Hkeys.
  rewrite first_occurrences_from_empty in Hkeys.
  exists rec. split; [congruence|]. split; [done|].
  intros Hnone. rewrite Hnone in Hkeys. by apply fmap_nil_inv in Hkeys.
Qed.

End Properties.

(** ** The script on the sample servers *)

Section Samples.
#[local] Existing Instance ascii_builtins.

Ltac evaluated := vm_compute; reflexivity.

Lemma manifest_table_resolved_witness :
  ∃ after rec info,
    for_db_infos (shop_server healthy) (live_tables (shop_server healthy))
      (lower_map (live_tables (shop_server healthy))) [orders_entry] after
    = Ok superseded_schema
    ∧ dict_get after "shop" = Some rec
    ∧ dict_get (db_tables rec) "Customers" = Some info
    ∧ tbl_name info = "Customers".
Proof.
  destruct (manifest_table_resolved (shop_server healthy)
              [] [orders_entry] early_entry
              (Some "dbname=bird") [] [Connected "dbname=bird"; Closed]
              superseded_schema "customers"
              ltac:(evaluated) ltac:(compute_done))
    as (before & after & rec & _ & _ & Hpost & Hrec & _ & Hfallback & _).
  destruct (Hfallback ltac:(compute_done) "Customers" ltac:(evaluated))
    as (_ & _ & _ & info & Hinfo & Hname).
  by exists after, rec, info.
Defined.



Lemma foreign_keys_follow_rows_witness :
  ∃ d, d ∈ orders_columns
       ∧ col_name d = "customer_id"
       ∧ {| target_table := "Customers"; target_column := "id" |}
         ∈ col_foreign_keys d.
Proof.
  destruct (foreign_keys_follow_rows (shop_server healthy) "orders"
              orders_columns ltac:(evaluated)) as (_ & Hrows & _).
  apply (Hrows "customer_id" "Customers" "id"
           {| c_table_name := "orders"; c_column_name := "customer_id";
              c_data_type := "integer"; c_ordinal_position := 2 |});
    [vm_compute; repeat constructor | vm_compute; repeat constructor
    | reflexivity | reflexivity].
Defined.



Lemma columns_in_ordinal_position_order_witness :
  col_name <$> tbl_columns orders_info = ["id"; "customer_id"; "note"].
Proof.
  by destruct (columns_in_ordinal_position_order (shop_server healthy)
                 "orders" orders_info ltac:(evaluated)) as (_ & -> & _).
Defined.

Lemma unresolved_table_omitted_witness :
  ∃ rec,
    dict_get shop_schema "shop" = Some rec
    ∧ db_name rec = "shop"
    ∧ ("ghost_table" ∉ dict_keys (db_tables rec))
    ∧ (∃ info, dict_get (db_tables rec) "orders" = Some info
               ∧ tbl_name info = "orders").
Proof.
  destruct (unresolved_table_omitted (shop_server healthy) shop_manifest
              (Some "dbname=bird") [] [Connected "dbname=bird"; Closed]
              shop_schema shop_entry)
    as (rec & Hrec & Hname & Hghost & Hrest);
    [evaluated | compute_done |].
  exists rec. split; [done|]. split; [done|]. split.
  - by apply (Hghost "ghost_table");
      [compute_done | compute_done | evaluated].
  - by apply (Hrest ltac:(evaluated) "orders" "orders");
      [compute_done | evaluated].
Defined.

(** C7, as the claim states it, fails: [customers] of the earlier entry
    for [shop] resolves to [Customers], next to a name that does not
    resolve, but the later entry for [shop] starts the record afresh and
    the output holds no [Customers]. *)
Lemma resolved_table_of_earlier_entry_dropped :
  get_bird_pg_schema_dict (shop_server healthy) [early_entry; orders_entry]
    (Some "dbname=bird") []
  = (Ok superseded_schema, [Connected "dbname=bird"; Closed])
  ∧ resolve_table (live_tables (shop_server healthy))
      (lower_map (live_tables (shop_server healthy))) "ghost_table" = None
  ∧ resolve_table (live_tables (shop_server healthy))
      (lower_map (live_tables (shop_server healthy))) "customers"
    = Some "Customers"
  ∧ ∃ rec, dict_get superseded_schema "shop" = Some rec
           ∧ dict_get (db_tables rec) "Customers" = None
           ∧ dict_keys (db_tables rec) = ["orders"].
Proof.
  split; [evaluated | split; [evaluated | split; [evaluated|]]].
  eexists. split; [evaluated | split; evaluated].
Qed.

Lemma repeated_db_id_keeps_last_entry_witness :
  ∃ rec,
    dict_get repeated_schema "shop" = Some rec
    ∧ db_name rec = "shop"
    ∧ "Customers" ∉ dict_keys (db_tables rec).
Proof.
  destruct (repeated_db_id_keeps_last_entry (shop_server healthy)
              [] [] [] customers_entry orders_entry
              (Some "dbname=bird") [] [Connected "dbname=bird"; Closed]
              repeated_schema)
    as (_ & rec & Hrec & Hname & _ & Hdropped);
    [evaluated | evaluated | by intros ? ?%elem_of_nil |].
  exists rec. split; [done|]. split; [done|].
  apply Hdropped; compute_done.
Defined.

Lemma lower_map_keeps_last_name_witness :
  Sorted str_le ["Customers"; "customers"]
  ∧ lower_map ["Customers"; "customers"] !! lower "CUSTOMERS"
    = last_match ["Customers"; "customers"] (lower "CUSTOMERS")
  ∧ resolve_table ["Customers"; "customers"]
      (lower_map ["Customers"; "customers"]) "CUSTOMERS"
    = last_match ["Customers"; "customers"] (lower "CUSTOMERS").
Proof.
  apply (lower_map_keeps_last_name twin_server); [evaluated | compute_done].
Defined.

(** C6, as the claim states it, fails: with the live tables [Customers] and
    [customers], the first of them in sorted order is [Customers], but the
    manifest name [CUSTOMERS] resolves to [customers]. *)
Lemma first_name_not_retained :
  get_tables twin_server = Ok ["Customers"; "customers"]
  ∧ first_match ["Customers"; "customers"] (lower "CUSTOMERS")
    = Some "Customers"
  ∧ lower_map ["Customers"; "customers"] !! lower "CUSTOMERS"
    = Some "customers"
  ∧ resolve_table ["Customers"; "customers"]
      (lower_map ["Customers"; "customers"]) "CUSTOMERS"
    ≠ first_match ["Customers"; "customers"] (lower "CUSTOMERS").
Proof. repeat split; [evaluated.. | by vm_compute]. Qed.

(** C4, as the claim states it, fails: when sampling a column raises, the
    run ends with the connection opened and not closed. *)
Lemma connection_left_open_on_error :
  get_bird_pg_schema_dict (shop_server note_unreadable) shop_manifest
    (Some "dbname=bird") []
  = (Raise DatabaseError, [Connected "dbname=bird"])
  ∧ opens [Connected "dbname=bird"] = 1%nat
  ∧ closes [Connected "dbname=bird"] ≠ 1%nat.
Proof. repeat split; [evaluated.. | by vm_compute]. Qed.

(** Witnesses of the further properties. *)

Lemma get_tables_sorted_public_witness :
  Sorted str_le ["Customers"; "orders"]
  ∧ ["Customers"; "orders"] ≡ₚ run_query (shop_server healthy) SelectTables.
Proof.
  by destruct (get_tables_sorted_public (shop_server healthy)
                 ["Customers"; "orders"] ltac:(evaluated)) as (? & ? & _).
Defined.

Lemma primary_keys_from_catalog_witness :
  ∃ tc kcu,
    tc ∈ pg_table_constraints (shop_server healthy)
    ∧ kcu ∈ pg_key_column_usage (shop_server healthy)
    ∧ tc_table_name tc = "orders"
    ∧ tc_constraint_type tc = "PRIMARY KEY"
    ∧ tc_constraint_name tc = kcu_constraint_name kcu
    ∧ kcu_column_name kcu = "id".
Proof.
  assert (get_primary_keys (shop_server healthy) "orders"
          = Ok ({["id"]} : gset string)) as Hkeys by evaluated.
  apply (proj1 (primary_keys_from_catalog _ _ _ "id" Hkeys)).
  compute_done.
Defined.

Lemma foreign_keys_from_catalog_witness :
  Forall (λ d, col_name d = "customer_id" →
               {| target_table := "Customers"; target_column := "id" |}
               ∈ col_foreign_keys d)
    orders_columns.
Proof.
  apply Forall_forall. intros d Hd Hname.
  apply (foreign_keys_from_catalog (shop_server healthy) "orders"
           orders_columns d _ ltac:(evaluated) Hd).
  exists {| tc_constraint_name := "orders_customer_id_fkey";
            tc_table_name := "orders";
            tc_constraint_type := "FOREIGN KEY" |},
         {| kcu_constraint_name := "orders_customer_id_fkey";
            kcu_table_name := "orders"; kcu_column_name := "customer_id" |},
         {| ccu_constraint_name := "orders_customer_id_fkey";
            ccu_table_name := "Customers"; ccu_column_name := "id" |}.
  rewrite Hname.
  repeat split; try reflexivity; vm_compute; repeat constructor.
Defined.

Lemma foreign_key_map_entries_witness :
  [{| target_table := "Customers"; target_column := "id" |}]
  = refs_of "customer_id"
      (run_query (shop_server healthy) (SelectForeignKeys "orders")).
Proof.
  assert (get_foreign_keys_by_column (shop_server healthy) "orders"
          = Ok ({["customer_id" :=
                    [{| target_table := "Customers";
                        target_column := "id" |}]]}
                : gmap string (list foreign_key_ref))) as Hmap by evaluated.
  pose proof (foreign_key_map_entries _ _ _ "customer_id" Hmap) as Hentry.
  rewrite lookup_singleton_eq in Hentry. by destruct Hentry as [_ ?].
Defined.

Lemma get_columns_shape_witness :
  col_type <$> orders_columns = ["INTEGER"; "INTEGER"; "TEXT"]
  ∧ Forall (λ d, col_description d = "") orders_columns.
Proof.
  destruct (get_columns_shape (shop_server healthy) "orders" orders_columns
              ltac:(evaluated)) as (_ & Htypes & Hdescriptions & _).
  split; [rewrite Htypes; evaluated | done].
Defined.

Lemma value_samples_count_witness :
  Forall (λ d, length (col_value_samples d)
               = (5 `min` length
                            (filter is_Some
                               (pg_stored (shop_server healthy) "orders"
                                  (col_name d))))%nat)
    orders_columns.
Proof.
  assert (Forall (λ d, has_dquote (col_name d) = false) orders_columns)
    as Hplain by compute_done.
  apply Forall_forall. intros d Hd.
  by destruct (value_samples_count (shop_server healthy) "orders"
                 orders_columns d ltac:(evaluated) Hd ltac:(evaluated)
                 (proj1 (Forall_forall _ _) Hplain d Hd)) as [_ ?].
Defined.

Lemma resolve_table_idempotent_witness :
  "Customers" ∈ ["Customers"; "orders"]
  ∧ lower "Customers" = lower "CUSTOMERS"
  ∧ resolve_table ["Customers"; "orders"]
      (lower_map ["Customers"; "orders"]) "Customers"
    = Some "Customers".
Proof.
  apply (resolve_table_idempotent ["Customers"; "orders"] "CUSTOMERS").
  evaluated.
Defined.

Lemma resolve_table_unique_match_witness :
  resolve_table ["Customers"; "orders"]
    (lower_map ["Customers"; "orders"]) "ORDERS"
  = Some "orders".
Proof.
  apply resolve_table_unique_match; [|compute_done|evaluated].
  assert (Forall (λ t1, Forall (λ t2, lower t1 = lower t2 → t1 = t2)
                          ["Customers"; "orders"])
            ["Customers"; "orders"]) as Hall by compute_done.
  intros t1 t2 Ht1 Ht2.
  exact (proj1 (Forall_forall _ _)
           (proj1 (Forall_forall _ _) Hall t1 Ht1) t2 Ht2).
Defined.


Lemma output_records_consistent_witness :
  ∃ rec, dict_get shop_schema "shop" = Some rec ∧ db_name rec = "shop".
Proof.
  assert (∃ rec, dict_get shop_schema "shop" = Some rec) as [rec Hrec]
    by (eexists; evaluated).
  exists rec. split; [done|].
  by destruct (output_records_consistent (shop_server healthy) shop_manifest
                 (Some "dbname=bird") [] [Connected "dbname=bird"; Closed]
                 shop_schema "shop" rec ltac:(evaluated) Hrec) as [? _].
Defined.

Lemma schema_keys_in_manifest_order_witness :
  dict_keys repeated_schema
  = first_occurrences (db_id <$> [customers_entry; orders_entry]).
Proof.
  by destruct (schema_keys_in_manifest_order (shop_server healthy)
                 [customers_entry; orders_entry] (Some "dbname=bird") []
                 [Connected "dbname=bird"; Closed] repeated_schema
                 ltac:(evaluated)) as [? _].
Defined.

Lemma tables_keys_in_entry_order_witness :
  ∃ rec,
    dict_get shop_schema "shop" = Some rec
    ∧ dict_keys (db_tables rec) = ["Customers"; "orders"].
Proof.
  destruct (tables_keys_in_entry_order (shop_server healthy) shop_manifest
              (Some "dbname=bird") [] [Connected "dbname=bird"; Closed]
              shop_schema shop_entry ltac:(evaluated) ltac:(evaluated))
    as (rec & Hrec & Hkeys & _).
  exists rec. split; [exact Hrec|]. rewrite Hkeys. evaluated.
Defined.

End Samples.

